(** * stagesepx.cutter: ranges of frames, their merge and the stable /
      unstable classification

    A shallow embedding of [src/stagesepx/cutter.py].

    Conventions of the embedding.
    - Python [int] is [Z] (unbounded).
    - Python [float] (similarity scores, thresholds, timestamps, and the
      intermediate values of [pick]) is idealised as the exact rationals
      [Q]: binary64 rounding, infinities and NaN are outside the model.
      [np.mean] of an empty list, which numpy evaluates to NaN, is [None];
      every comparison with it is false, as for NaN.
    - A Python exception is the left injection of [sum exn]; code that can
      raise is written in ExtLib's error monad.
    - An optional keyword argument ([offset=None], ...) is an [option];
      [if not x] is the truth-value test of Python: [None], [0] and [0.0]
      are false.
    - Frame decoding, the similarity metric and the random generator are
      not part of the file under study; they are parameters. *)

From Stdlib Require Import ZArith QArith Qround List String Lia Bool.
From ExtLib Require Import Structures.Monad Structures.MonadExc
  Data.Monads.EitherMonad.
Import ListNotations MonadNotation.
Local Open Scope monad_scope.
Local Open Scope Z_scope.

(** ** Python values *)

Abbreviation float := Q (only parsing).

Inductive exn : Type :=
| IndexError            (* list index out of range *)
| AssertionError        (* a failed [assert] *)
| ValueError            (* random.sample: sample larger than population *)
| RuntimeError (frame_id : Z)   (* frame {frame_id} not found in video *)
| LoopBound.            (* the bound given to a [while] loop of the model
                           ran out; see [get_unstable_range_terminates] *)

Definition result := sum exn.

(** Truth value of an optional [int] and of an optional [float]. *)
Definition truthy_int (x : option Z) : bool :=
  match x with
  | None => false
  | Some k => negb (k =? 0)
  end.

Definition truthy_float (x : option float) : bool :=
  match x with
  | None => false
  | Some t => negb (Qeq_bool t 0)
  end.

(** [x > y] on floats. *)
Definition float_gt (x y : float) : bool := negb (Qle_bool x y).


(** [l[-1]] *)
Definition last_item {A} (l : list A) : result A :=
  match rev l with
  | [] => raise IndexError
  | x :: _ => ret x
  end.

(** [l[i]] for a non-negative [i] *)
Definition item {A} (l : list A) (i : nat) : result A :=
  match nth_error l i with
  | None => raise IndexError
  | Some x => ret x
  end.

(** [range(n)] *)
Definition py_range (n : Z) : list Z := map Z.of_nat (seq 0 (Z.to_nat n)).

(** ** class VideoCutRange *)

Record VideoCutRange : Type := mkVideoCutRange {
  video_path : string;
  start : Z;
  end_ : Z;
  ssim : list float;
  start_time : float;
  end_time : float
}.

(** [VideoCutRange.__init__]: a reversed pair of bounds is swapped,
    together with the timestamps. *)
Definition VideoCutRange_init (path : string) (s e : Z) (sc : list float)
    (st et : float) : VideoCutRange :=
  if s >? e then mkVideoCutRange path e s sc et st
  else mkVideoCutRange path s e sc st et.

(** The invariant that [__init__] establishes. *)
Definition well_formed (r : VideoCutRange) : Prop := start r <= end_ r.

(** The keyword arguments that [get_range] and [get_unstable_range] pass
    on to [is_stable], [can_merge] and [merge]. *)
Record kwargs : Type := mkKwargs {
  kw_threshold : option float;
  kw_offset : option Z
}.

Definition no_kwargs : kwargs := mkKwargs None None.

Definition can_merge (self another : VideoCutRange) (offset : option Z)
    : bool :=
  let is_continuous :=
    if negb (truthy_int offset) then end_ self =? start another
    else end_ self + match offset with Some k => k | None => 0 end
           >=? start another in
  is_continuous && (video_path self =? video_path another)%string.

Definition merge (self another : VideoCutRange) (offset : option Z)
    : result VideoCutRange :=
  if can_merge self another offset then
    ret (VideoCutRange_init
           (video_path self)
           (start self)
           (end_ another)
           (ssim self ++ ssim another)
           (start_time self)
           (end_time another))
  else raise AssertionError.

Definition contain (self : VideoCutRange) (frame_id : Z) : bool :=
  (start self <=? frame_id) && (frame_id <? end_ self + 1).

Definition get_length (self : VideoCutRange) : Z :=
  end_ self - start self + 1.

(** [np.mean] *)
Definition np_mean (l : list float) : option float :=
  match l with
  | [] => None
  | _ => Some (fold_left Qplus l 0 / inject_Z (Z.of_nat (List.length l)))%Q
  end.

Definition is_stable (self : VideoCutRange) (threshold : option float)
    : bool :=
  let threshold :=
    if negb (truthy_float threshold) then 0.95%Q
    else match threshold with Some t => t | None => 0.95%Q end in
  match np_mean (ssim self) with
  | Some m => float_gt m threshold
  | None => false
  end.

Section External.

(** [random.sample(range(lo, hi), k)], with the generator's state left
    implicit: some [k] distinct members of the population, or
    [ValueError]. *)
Variable random_sample : Z -> Z -> Z -> result (list Z).

(** [toolbox.compare_ssim] of the compressed frames [start] and [end]
    of a video, as [is_loop] obtains it. *)
Variable frame_ssim : string -> Z -> Z -> float.


Definition is_loop (self : VideoCutRange) (threshold : option float)
    : bool :=
  let threshold :=
    if negb (truthy_float threshold) then 0.95%Q
    else match threshold with Some t => t | None => 0.95%Q end in
  float_gt (frame_ssim (video_path self) (start self) (end_ self))
           threshold.

(** ** class VideoCutResult *)

Record VideoCutResult : Type := mkVideoCutResult {
  result_video_path : string;
  ssim_list : list VideoCutRange
}.

Fixpoint first_containing (l : list VideoCutRange) (frame_id : Z)
    : result VideoCutRange :=
  match l with
  | [] => raise (RuntimeError frame_id)
  | each :: rest =>
      if contain each frame_id then ret each
      else first_containing rest frame_id
  end.

Definition get_target_range_by_id (self : VideoCutResult) (frame_id : Z)
    : result VideoCutRange :=
  first_containing (ssim_list self) frame_id.

Definition _length_filter (range_list : list VideoCutRange) (limit : Z)
    : list VideoCutRange :=
  filter (fun each => get_length each >=? limit) range_list.

(** [sorted(l, key=lambda x: x.start)]: a stable sort. *)
Fixpoint insert_by_start (x : VideoCutRange) (l : list VideoCutRange)
    : list VideoCutRange :=
  match l with
  | [] => [x]
  | y :: l' =>
      if start x <=? start y then x :: l else y :: insert_by_start x l'
  end.

Definition sorted_by_start (l : list VideoCutRange) : list VideoCutRange :=
  fold_right insert_by_start [] l.

(** The inner [while] of the merge scan (lines 163-170); returns the
    index reached and the range accumulated. *)
Fixpoint merge_while (bound : nat) (change_range_list : list VideoCutRange)
    (kw : kwargs) (i : nat) (cur : VideoCutRange)
    : result (nat * VideoCutRange) :=
  match bound with
  | O => raise LoopBound
  | S bound =>
      next <- item change_range_list (i + 1) ;;
      if can_merge cur next (kw_offset kw) then
        let i := (i + 1)%nat in
        x <- item change_range_list i ;;
        cur <- merge cur x (kw_offset kw) ;;
        if (List.length change_range_list <=? i + 1)%nat then ret (i, cur)
        else merge_while bound change_range_list kw i cur
      else ret (i, cur)
  end.

(** The outer [while] (lines 161-172). *)
Fixpoint scan_while (bound : nat) (change_range_list : list VideoCutRange)
    (kw : kwargs) (i : nat) (merged_change_range_list : list VideoCutRange)
    : result (list VideoCutRange) :=
  match bound with
  | O => raise LoopBound
  | S bound =>
      if Z.of_nat i <? Z.of_nat (List.length change_range_list) - 1 then
        cur <- item change_range_list i ;;
        ic <- merge_while (List.length change_range_list)
                change_range_list kw i cur ;;
        scan_while bound change_range_list kw (fst ic + 1)%nat
          (merged_change_range_list ++ [snd ic])
      else ret merged_change_range_list
  end.

Definition get_unstable_range (self : VideoCutResult) (limit : option Z)
    (range_threshold : option float) (kw : kwargs)
    : result (list VideoCutRange) :=
  let change_range_list :=
    sorted_by_start
      (filter (fun i => negb (is_stable i (kw_threshold kw)))
              (ssim_list self)) in
  merged_change_range_list <-
    scan_while (S (List.length change_range_list)) change_range_list kw
      0%nat [] ;;
  last_change <- last_item change_range_list ;;
  last_merged <- last_item merged_change_range_list ;;
  let merged_change_range_list :=
    if start last_change >? end_ last_merged
    then merged_change_range_list ++ [last_change]
    else merged_change_range_list in
  let merged_change_range_list :=
    if truthy_int limit
    then _length_filter merged_change_range_list
           match limit with Some k => k | None => 0 end
    else merged_change_range_list in
  let merged_change_range_list :=
    if truthy_float range_threshold
    then filter (fun i => negb (is_loop i range_threshold))
                merged_change_range_list
    else merged_change_range_list in
  ret merged_change_range_list.

(** The [for] loop of [get_range] (lines 238-250), over the indices
    [range(len(unstable_range_list) - 1)]. *)
Fixpoint diff_range (self : VideoCutResult)
    (unstable_range_list : list VideoCutRange) (indices : list nat)
    (range_list : list VideoCutRange) : result (list VideoCutRange) :=
  match indices with
  | [] => ret range_list
  | i :: indices =>
      u <- item unstable_range_list i ;;
      let range_start_id := end_ u + 1 in
      u' <- item unstable_range_list (i + 1) ;;
      let range_end_id := start u' - 1 in
      a <- get_target_range_by_id self (range_start_id - 1) ;;
      b <- get_target_range_by_id self (range_end_id - 1) ;;
      diff_range self unstable_range_list indices
        (range_list ++
         [VideoCutRange_init (result_video_path self)
            range_start_id range_end_id [1%Q]
            (start_time a) (end_time b)])
  end.

Definition get_range (self : VideoCutResult) (limit : option Z)
    (range_threshold : option float) (kw : kwargs)
    : result (list VideoCutRange * list VideoCutRange) :=
  unstable_range_list <- get_unstable_range self limit range_threshold kw ;;
  let video_start_frame_id := 0 in
  let video_start_timestamp := 0%Q in
  last_range <- last_item (ssim_list self) ;;
  let video_end_frame_id := end_ last_range in
  let video_end_timestamp := end_time last_range in
  first_unstable <- item unstable_range_list 0 ;;
  let first_stable_range_end_id := start first_unstable - 1 in
  last_unstable <- last_item unstable_range_list ;;
  let end_stable_range_start_id := end_ last_unstable in
  a <- get_target_range_by_id self (first_stable_range_end_id - 1) ;;
  let first_stable :=
    VideoCutRange_init (result_video_path self)
      video_start_frame_id first_stable_range_end_id [1%Q]
      video_start_timestamp (start_time a) in
  b <- get_target_range_by_id self (end_stable_range_start_id - 1) ;;
  let last_stable :=
    VideoCutRange_init (result_video_path self)
      end_stable_range_start_id video_end_frame_id [1%Q]
      (end_time b) video_end_timestamp in
  range_list <-
    diff_range self unstable_range_list
      (seq 0 (List.length unstable_range_list - 1))
      [first_stable; last_stable] ;;
  let range_list :=
    if truthy_int limit
    then _length_filter range_list
           match limit with Some k => k | None => 0 end
    else range_list in
  let stable_range_list := sorted_by_start range_list in
  ret (stable_range_list, unstable_range_list).

Definition get_stable_range (self : VideoCutResult) (limit : option Z)
    (range_threshold : option float) (kw : kwargs)
    : result (list VideoCutRange) :=
  r <- get_range self limit range_threshold kw ;;
  ret (fst r).

End External.

(** ** class VideoCutter *)

Record VideoCutter : Type := mkVideoCutter { step : Z }.

(** [VideoCutter.__init__] *)
Definition VideoCutter_init (step : option Z) : VideoCutter :=
  mkVideoCutter
    (if negb (truthy_int step) then 1
     else match step with Some s => s | None => 1 end).

Section Pipeline.

(** A decoded frame, and the numpy and toolbox operations on frames. *)
Variable image : Type.
Variables np_vsplit np_hsplit : image -> Z -> list image.
Variable compress_frame : image -> image.
Variable compare_ssim : image -> image -> float.

(** What [convert_video_into_ssim_list] observes of the capture: the
    first frame with the frame id and the time read after it, the frame
    id read after the second [cap.read()], and the frames, each with
    the time read after it, of the successive reads that succeed
    ([ret] true); the read that follows the last of them fails. *)
Record capture : Type := mkCapture {
  first_frame : image;
  first_frame_id : Z;
  first_frame_time : float;
  second_frame_id : Z;
  frames : list (image * float)
}.

Fixpoint split_rows (origin : image) (column : Z) (indices : list Z)
    : result (list (list image)) :=
  match indices with
  | [] => ret []
  | i :: indices =>
      strip <- item (np_vsplit origin column) (Z.to_nat i) ;;
      res <- split_rows origin column indices ;;
      ret (np_hsplit strip column :: res)
  end.

Definition pic_split (origin : image) (column : Z) : result (list image) :=
  res <- split_rows origin column (py_range column) ;;
  ret (List.concat res).

(** The [for] loop of lines 417-422: the least similarity of a block. *)
Definition least_ssim (start_part_list end_part_list : list image)
    : float :=
  fold_left
    (fun ssim each =>
       let part_ssim := compare_ssim (fst each) (snd each) in
       if float_gt ssim part_ssim then part_ssim else ssim)
    (combine start_part_list end_part_list) 1%Q.

(** The [while ret] loop of lines 411-442, by recursion on the reads
    that succeed. *)
Fixpoint ssim_while (self : VideoCutter) (path : string) (block : Z)
    (reads : list (image * float)) (start_frame : image)
    (start_frame_id end_frame_id : Z) (start_frame_time : float)
    (ssim_list : list VideoCutRange) : result (list VideoCutRange) :=
  match reads with
  | [] => ret ssim_list
  | (end_frame, end_frame_time) :: reads =>
      let end_frame := compress_frame end_frame in
      start_part_list <- pic_split start_frame block ;;
      end_part_list <- pic_split end_frame block ;;
      let ssim := least_ssim start_part_list end_part_list in
      let ssim_list :=
        ssim_list ++
        [VideoCutRange_init path start_frame_id end_frame_id [ssim]
           start_frame_time end_frame_time] in
      ssim_while self path block reads end_frame
        end_frame_id (end_frame_id + step self) end_frame_time ssim_list
  end.

Definition convert_video_into_ssim_list (self : VideoCutter)
    (path : string) (block : option Z) (cap : capture)
    : result (list VideoCutRange) :=
  let block :=
    if negb (truthy_int block) then 2
    else match block with Some b => b | None => 2 end in
  ssim_while self path block (frames cap)
    (compress_frame (first_frame cap))
    (first_frame_id cap) (second_frame_id cap) (first_frame_time cap) [].

Definition cut (self : VideoCutter) (path : string) (block : option Z)
    (cap : capture) : result VideoCutResult :=
  ssim_list <- convert_video_into_ssim_list self path block cap ;;
  ret (mkVideoCutResult path ssim_list).

End Pipeline.

(** ** Inputs used in the examples *)


Definition no_loop : string -> Z -> Z -> float := fun _ _ _ => 0%Q.

(** An elementary range of the video ["v"] with one score; frame [k] is
    stamped with the time [k]. *)
Definition elementary (s e : Z) (score : float) : VideoCutRange :=
  VideoCutRange_init "v" s e [score] (inject_Z s) (inject_Z e).
Arguments elementary s%_Z e%_Z score%_Q.

(** ** Notions of the specification *)


(** The offset that [can_merge] is asked to tolerate, 0 when omitted. *)
Definition offset_value (offset : option Z) : Z :=
  match offset with Some k => k | None => 0 end.



(** A relation holds of every two consecutive ranges [l[i]], [l[i+1]]. *)
Definition consecutive (R : VideoCutRange -> VideoCutRange -> Prop)
    (l : list VideoCutRange) : Prop :=
  forall (i : nat) (r r' : VideoCutRange),
    nth_error l i = Some r -> nth_error l (S i) = Some r' -> R r r'.

(** The ranges of [l] run from [s] to [e], then from [e] to [e + step],
    and so on, each starting at the frame where the one before ended. *)
Fixpoint chain (step s e : Z) (l : list VideoCutRange) : Prop :=
  match l with
  | [] => True
  | r :: l' => start r = s /\ end_ r = e /\ chain step e (e + step) l'
  end.

(** numpy splits an image into as many strips as it is asked for. *)
Definition vsplit_sections (image : Type)
    (np_vsplit : image -> Z -> list image) (column : Z) : Prop :=
  forall img, (Z.to_nat column <= List.length (np_vsplit img column))%nat.

(** The grid size in force: 2 unless another, not zero, is given. *)
Definition block_or_default (block : option Z) : Z :=
  match block with
  | Some b => if b =? 0 then 2 else b
  | None => 2
  end.

(** A capture of three frames numbered from 1, cut with the default step
    and block: frames are integers, a frame splits into [column] copies of
    itself, every two frames are alike. *)
Definition three_frames : capture Z :=
  mkCapture Z 7 1 0.1%Q 2 [(8, 0.2%Q); (9, 0.3%Q)].

Definition three_frames_ssim_list : result (list VideoCutRange) :=
  convert_video_into_ssim_list Z
    (fun img column => repeat img (Z.to_nat column))
    (fun img column => repeat img (Z.to_nat column))
    (fun img => img) (fun _ _ => 1%Q)
    (VideoCutter_init None) "v" None three_frames.

(** The candidates of the merge scan: the ranges that are not stable, in
    the order of their starts. *)
Definition change_ranges (self : VideoCutResult) (kw : kwargs)
    : list VideoCutRange :=
  sorted_by_start
    (filter (fun i => negb (is_stable i (kw_threshold kw))) (ssim_list self)).

(** The scenario of the specification: five elementary ranges, two of
    them, next to each other, unstable. *)
Definition end_to_end : VideoCutResult :=
  mkVideoCutResult "v"
    [elementary 0 10 0.99; elementary 10 20 0.99; elementary 20 30 0.40;
     elementary 30 40 0.35; elementary 40 60 0.99].

(** A video in which nothing changes. *)
Definition still_video : VideoCutResult :=
  mkVideoCutResult "v" [elementary 1 2 0.99; elementary 2 3 0.99].

(** A video with one unstable step between two stable ones. *)
Definition one_change : VideoCutResult :=
  mkVideoCutResult "v"
    [elementary 1 2 0.99; elementary 2 3 0.40; elementary 3 4 0.99].

(** A video that changes from its first frame on, and one that changes
    from its second frame on. *)
Definition changes_at_once : VideoCutResult :=
  mkVideoCutResult "v"
    [elementary 1 2 0.40; elementary 2 3 0.35; elementary 3 4 0.99].

Definition changes_early : VideoCutResult :=
  mkVideoCutResult "v"
    [elementary 1 2 0.99; elementary 2 3 0.40; elementary 3 4 0.35;
     elementary 4 5 0.99].

(** The elementary ranges follow one another: every range is well formed
    and ends no later than the next one, of the same video, starts.  The
    ranges that the pipeline returns do. *)
Fixpoint in_sequence (l : list VideoCutRange) : Prop :=
  match l with
  | [] => True
  | a :: l' =>
      well_formed a
      /\ match l' with
         | [] => True
         | b :: _ => end_ a <= start b /\ video_path a = video_path b
         end
      /\ in_sequence l'
  end.

(** The merge scan as the specification words it: a fold over the sorted
    candidates that carries an accumulator, folds the next candidate in
    while it can be merged, and emits the accumulator when it cannot and
    at the end. *)
Fixpoint greedy_merge (cur : VideoCutRange) (rest : list VideoCutRange)
    (offset : option Z) : list VideoCutRange :=
  match rest with
  | [] => [cur]
  | next :: rest' =>
      if can_merge cur next offset
      then greedy_merge
             (VideoCutRange_init (video_path cur) (start cur) (end_ next)
                (ssim cur ++ ssim next) (start_time cur) (end_time next))
             rest' offset
      else cur :: greedy_merge next rest' offset
  end.

Definition merged_ranges (candidates : list VideoCutRange)
    (offset : option Z) : list VideoCutRange :=
  match candidates with
  | [] => []
  | cur :: rest => greedy_merge cur rest offset
  end.

(** The two optional filters that end [get_unstable_range]. *)
Definition unstable_filters (frame_ssim : string -> Z -> Z -> float)
    (limit : option Z) (range_threshold : option float)
    (l : list VideoCutRange) : list VideoCutRange :=
  let l := if truthy_int limit
           then _length_filter l match limit with Some k => k | None => 0 end
           else l in
  if truthy_float range_threshold
  then filter (fun i => negb (is_loop frame_ssim i range_threshold)) l
  else l.

(** The ranges of [l] are well formed, of one video, in ascending order,
    and each starts more than [gap] frames after the one before ends. *)
Fixpoint apart (gap : Z) (l : list VideoCutRange) : Prop :=
  match l with
  | [] => True
  | a :: l' =>
      well_formed a
      /\ match l' with
         | [] => True
         | b :: _ => end_ a + gap < start b /\ video_path a = video_path b
         end
      /\ apart gap l'
  end.

(** The range [inner] lies within the range [outer]. *)
Definition within (inner outer : VideoCutRange) : Prop :=
  start outer <= start inner /\ end_ inner <= end_ outer.

(** The elementary ranges as the pipeline returns them: each spans at
    least one step, and the next starts at the frame where it ends, in
    the same video. *)
Fixpoint contiguous (l : list VideoCutRange) : Prop :=
  match l with
  | [] => True
  | a :: l' =>
      start a < end_ a
      /\ match l' with
         | [] => True
         | b :: _ => end_ a = start b /\ video_path a = video_path b
         end
      /\ contiguous l'
  end.

(** ** VideoCutResult.thumbnail *)

(** The [while ret and count <= length] loop of [thumbnail] (lines
    291-295), by recursion on the frames that the capture still reads
    after the jump to the start of the range; the read that follows the
    last of them fails. *)
Fixpoint thumbnail_while {image : Type} (compress : image -> image)
    (reads : list image) (count length : Z) (frame_list : list image)
    : list image :=
  match reads with
  | [] => frame_list
  | frame :: reads =>
      if count <=? length
      then thumbnail_while compress reads (count + 1) length
             (frame_list ++ [compress frame])
      else frame_list
  end.

(** [thumbnail], up to the image that numpy stacks from the frames:
    [compress_frame], [np.vstack] and [np.hstack] are parameters. *)
Definition thumbnail {image : Type}
    (compress_frame : image -> float -> image)
    (np_vstack np_hstack : list image -> image)
    (target_range : VideoCutRange) (compress_rate : option float)
    (is_vertical : bool) (reads : list image) : image :=
  let compress_rate :=
    if negb (truthy_float compress_rate) then 0.1%Q
    else match compress_rate with Some r => r | None => 0.1%Q end in
  let stack_func := if is_vertical then np_vstack else np_hstack in
  stack_func
    (thumbnail_while (fun frame => compress_frame frame compress_rate)
       reads 1 (get_length target_range) []).

(** A capture of five frames numbered from 1, the last two of which
    differ from the frame before them; two frames are alike when they
    are equal. *)
Definition five_frames : capture Z :=
  mkCapture Z 7 1 0.1%Q 2 [(7, 0.2%Q); (7, 0.3%Q); (8, 0.4%Q); (9, 0.5%Q)].

Definition alike (a b : Z) : float := if a =? b then 1%Q else 0.4%Q.

Definition five_frames_video : result VideoCutResult :=
  cut Z (fun img column => repeat img (Z.to_nat column))
    (fun img column => repeat img (Z.to_nat column))
    (fun img => img) alike (VideoCutter_init None) "v" None five_frames.

(** * Properties *)

(** ** Ranges *)


Lemma VideoCutRange_init_ordered path s e sc st et :
  s <= e ->
  VideoCutRange_init path s e sc st et = mkVideoCutRange path s e sc st et.
Proof.
  intros H. unfold VideoCutRange_init.
  destruct (s >? e) eqn:E; [lia | reflexivity].
Qed.

Lemma VideoCutRange_init_reversed path s e sc st et :
  e < s ->
  VideoCutRange_init path s e sc st et = mkVideoCutRange path e s sc et st.
Proof.
  intros H. unfold VideoCutRange_init.
  destruct (s >? e) eqn:E; [reflexivity | lia].
Qed.

(** What [can_merge] computes, for every offset. *)
Lemma can_merge_true self another offset :
  can_merge self another offset = true <->
  video_path self = video_path another /\
  (if offset_value offset =? 0 then end_ self = start another
   else end_ self + offset_value offset >= start another).
Proof.
  unfold can_merge, truthy_int, offset_value.
  rewrite andb_true_iff, String.eqb_eq.
  destruct offset as [k|]; simpl.
  - destruct (k =? 0) eqn:E; simpl.
    + rewrite Z.eqb_eq. tauto.
    + rewrite Z.geb_le. split; intros [? ?]; split; auto; lia.
  - rewrite Z.eqb_eq. tauto.
Qed.

(** C4, as the code has it: with an offset that is not zero, [can_merge]
    holds exactly when the two ranges come from the same video and
    [self.end + offset >= another.start]; with an offset that is zero or
    omitted, exactly when they come from the same video and
    [self.end == another.start]; the two tests agree on ranges that do
    not overlap ([self.end <= another.start]). *)
Theorem can_merge_iff (self another : VideoCutRange) (offset : option Z) :
  (offset_value offset <> 0 ->
   (can_merge self another offset = true <->
    video_path self = video_path another /\
    end_ self + offset_value offset >= start another))
  /\ (offset_value offset = 0 ->
      (can_merge self another offset = true <->
       video_path self = video_path another /\ end_ self = start another))
  /\ (end_ self <= start another ->
      (can_merge self another offset = true <->
       video_path self = video_path another /\
       end_ self + offset_value offset >= start another)).
Proof.
  rewrite can_merge_true.
  destruct (Z.eqb_spec (offset_value offset) 0) as [E|E].
  - rewrite E. split; [intros; contradiction|]. split; [tauto|].
    intros H. split; intros [? ?]; split; auto; lia.
  - split; [tauto|]. split; [intros; contradiction | tauto].
Qed.

(** With a zero offset the test of C4 is an equality: two overlapping
    ranges of one video satisfy [end + 0 >= start] and cannot merge. *)
Lemma can_merge_zero_offset_overlap :
  ~ (can_merge (elementary 0 5 0.5) (elementary 3 8 0.5) (Some 0) = true <->
     video_path (elementary 0 5 0.5) = video_path (elementary 3 8 0.5) /\
     end_ (elementary 0 5 0.5) + 0 >= start (elementary 3 8 0.5)).
Proof.
  intros [_ H].
  assert (E : can_merge (elementary 0 5 0.5) (elementary 3 8 0.5) (Some 0)
              = true).
  { apply H. split; [reflexivity | vm_compute; discriminate]. }
  vm_compute in E. discriminate.
Qed.

Lemma can_merge_iff_witness :
  can_merge (elementary 0 5 0.5) (elementary 3 8 0.5) (Some 2) = true /\
  can_merge (elementary 0 5 0.5) (elementary 5 8 0.5) None = true.
Proof.
  split.
  - refine (proj2 (proj1 (can_merge_iff (elementary 0 5 0.5)
                            (elementary 3 8 0.5) (Some 2)) _) _).
    + simpl; lia.
    + split; [reflexivity | simpl; lia].
  - refine (proj2 (proj1 (proj2 (can_merge_iff (elementary 0 5 0.5)
                                   (elementary 5 8 0.5) None)) _) _).
    + reflexivity.
    + split; reflexivity.
Defined.

(** C5: on two ranges that can merge, [merge] builds the range from the
    start of the first to the end of the second, with the start time of
    the first, the end time of the second and the scores of both in
    order; the operands being values, they are not changed.  Where
    [can_merge] is false, [merge] fails on its assertion. *)
Theorem merge_spec (self another : VideoCutRange) :
  well_formed self -> well_formed another ->
  (can_merge self another None = true ->
   merge self another None =
   inr (mkVideoCutRange (video_path self) (start self) (end_ another)
          (ssim self ++ ssim another) (start_time self) (end_time another)))
  /\ (forall offset,
        can_merge self another offset = false ->
        merge self another offset = inl AssertionError).
Proof.
  intros Hs Ha. unfold well_formed in *. split.
  - intros H. unfold merge. rewrite H. simpl.
    apply can_merge_true in H. simpl in H. destruct H as [_ H].
    rewrite VideoCutRange_init_ordered by lia. reflexivity.
  - intros offset H. unfold merge. rewrite H. reflexivity.
Qed.

Lemma merge_spec_witness :
  merge (elementary 20 30 0.4) (elementary 30 40 0.35) None =
  inr (mkVideoCutRange "v" 20 40 [0.4%Q; 0.35%Q] 20%Q 40%Q)
  /\ merge (elementary 20 30 0.4) (elementary 31 40 0.35) None =
     inl AssertionError.
Proof.
  assert (W1 : well_formed (elementary 20 30 0.4)) by (vm_compute; discriminate).
  assert (W2 : well_formed (elementary 30 40 0.35)) by (vm_compute; discriminate).
  assert (W3 : well_formed (elementary 31 40 0.35)) by (vm_compute; discriminate).
  split.
  - apply (proj1 (merge_spec _ _ W1 W2)). reflexivity.
  - apply (proj2 (merge_spec _ _ W1 W3)). reflexivity.
Defined.

(** ** Stability *)

Lemma float_gt_true x y : float_gt x y = true <-> (y < x)%Q.
Proof.
  unfold float_gt. rewrite negb_true_iff.
  split; intros H.
  - apply Qnot_le_lt. intros C. apply Qle_bool_iff in C. congruence.
  - destruct (Qle_bool x y) eqn:E; [|reflexivity].
    apply Qle_bool_iff in E. exfalso. exact (Qlt_not_le _ _ H E).
Qed.










(** ** Sampling *)




Lemma In_py_range (n i : Z) : In i (py_range n) <-> 0 <= i < n.
Proof.
  unfold py_range. rewrite in_map_iff. split.
  - intros [k [<- H]]. apply in_seq in H. lia.
  - intros H. exists (Z.to_nat i). split; [lia|]. apply in_seq. lia.
Qed.





Section Sampling.

Variable random_sample : Z -> Z -> Z -> result (list Z).




End Sampling.




(** ** Optional parameters *)





(** ** The pipeline *)

Section PipelineProperties.

Variable image : Type.
Variables np_vsplit np_hsplit : image -> Z -> list image.
Variable compress_frame : image -> image.
Variable compare_ssim : image -> image -> float.

Lemma split_rows_returns origin column indices :
  vsplit_sections image np_vsplit column ->
  (forall i, In i indices -> 0 <= i < column) ->
  exists res,
    split_rows image np_vsplit np_hsplit origin column indices = inr res.
Proof.
  intros V. induction indices as [|i indices IH]; intros H; simpl.
  - eexists; reflexivity.
  - destruct IH as [res E]; [intros; apply H; right; assumption|].
    unfold item.
    destruct (nth_error (np_vsplit origin column) (Z.to_nat i))
      as [strip|] eqn:N.
    + simpl. rewrite E. simpl. eexists; reflexivity.
    + apply nth_error_None in N. specialize (V origin).
      specialize (H i (or_introl eq_refl)). lia.
Qed.

Lemma pic_split_returns origin column :
  vsplit_sections image np_vsplit column ->
  exists parts, pic_split image np_vsplit np_hsplit origin column
                = inr parts.
Proof.
  intros V. unfold pic_split.
  destruct (split_rows_returns origin column (py_range column) V)
    as [res E]; [intros i H; apply In_py_range; exact H|].
  rewrite E. simpl. eexists; reflexivity.
Qed.

Lemma ssim_while_chain self path block reads :
  vsplit_sections image np_vsplit block -> 0 < step self ->
  forall start_frame start_frame_id end_frame_id start_frame_time ssim_list,
    start_frame_id <= end_frame_id ->
    exists l,
      ssim_while image np_vsplit np_hsplit compress_frame compare_ssim
        self path block reads start_frame start_frame_id end_frame_id
        start_frame_time ssim_list = inr (ssim_list ++ l)
      /\ List.length l = List.length reads
      /\ chain (step self) start_frame_id end_frame_id l.
Proof.
  intros V S. induction reads as [|[end_frame end_frame_time] reads IH];
    intros start_frame sid eid stime acc O; simpl.
  - exists []. rewrite app_nil_r. repeat split.
  - destruct (pic_split_returns start_frame block V) as [sp Es].
    destruct (pic_split_returns (compress_frame end_frame) block V)
      as [ep Ee].
    rewrite Es. simpl. rewrite Ee. simpl.
    destruct (IH (compress_frame end_frame) eid (eid + step self)
                end_frame_time
                (acc ++ [VideoCutRange_init path sid eid
                           [least_ssim image compare_ssim sp ep]
                           stime end_frame_time]))
      as [l [E [L C]]]; [lia|].
    eexists. rewrite E, <- app_assoc. simpl. split; [reflexivity|].
    split; [simpl; rewrite L; reflexivity|].
    rewrite VideoCutRange_init_ordered by exact O. simpl.
    repeat split. exact C.
Qed.

End PipelineProperties.

Lemma chain_consecutive step s e l :
  chain step s e l ->
  consecutive (fun r r' => end_ r = start r' /\ end_ r' = start r' + step) l.
Proof.
  revert s e. induction l as [|a l IH]; intros s e C i r r' Hr Hr'.
  - destruct i; discriminate.
  - destruct C as [Sa [Ea C]]. destruct i as [|i].
    + simpl in Hr, Hr'. injection Hr as <-.
      destruct l as [|b l]; [discriminate|].
      simpl in Hr'. injection Hr' as <-.
      destruct C as [Sb [Eb _]]. lia.
    + simpl in Hr. change (nth_error (a :: l) (S (S i)))
        with (nth_error l (S i)) in Hr'.
      exact (IH _ _ C i r r' Hr Hr').
Qed.

(** C8, as the code has it: with a positive step, and a capture whose
    frame ids do not decrease, the pipeline returns one range for each
    pair of frames read, and every range starts at the frame where the
    one before it ended: [r[i].end == r[i+1].start], every range but the
    first being [step] frames long. *)
Theorem convert_video_into_ssim_list_contiguous
    (image : Type) (np_vsplit np_hsplit : image -> Z -> list image)
    (compress_frame : image -> image) (compare_ssim : image -> image -> float)
    (self : VideoCutter) (path : string) (block : option Z)
    (cap : capture image) :
  0 < step self ->
  first_frame_id image cap <= second_frame_id image cap ->
  vsplit_sections image np_vsplit (block_or_default block) ->
  exists l,
    convert_video_into_ssim_list image np_vsplit np_hsplit compress_frame
      compare_ssim self path block cap = inr l
    /\ List.length l = List.length (frames image cap)
    /\ consecutive
         (fun r r' => end_ r = start r' /\ end_ r' = start r' + step self) l.
Proof.
  intros S O V. unfold convert_video_into_ssim_list.
  set (b := if negb (truthy_int block) then 2
            else match block with Some b => b | None => 2 end).
  assert (B : b = block_or_default block).
  { unfold b, block_or_default, truthy_int.
    destruct block as [k|]; [destruct (k =? 0)|]; reflexivity. }
  rewrite <- B in V.
  destruct (ssim_while_chain image np_vsplit np_hsplit compress_frame
              compare_ssim self path b (frames image cap) V S
              (compress_frame (first_frame image cap))
              (first_frame_id image cap) (second_frame_id image cap)
              (first_frame_time image cap) [] O) as [l [E [L C]]].
  exists l. simpl in E. split; [exact E|]. split; [exact L|].
  exact (chain_consecutive _ _ _ _ C).
Qed.

(** On three frames the pipeline returns the ranges 1..2 and 2..3: the
    first ends at 2, where the second starts, not at 1. *)
Lemma three_frames_share_a_frame :
  exists l, three_frames_ssim_list = inr l
            /\ ~ consecutive (fun r r' => end_ r + 1 = start r') l.
Proof.
  eexists. split; [reflexivity|].
  intros C. specialize (C 0%nat _ _ eq_refl eq_refl). discriminate C.
Qed.

Lemma convert_video_into_ssim_list_contiguous_witness :
  exists l, three_frames_ssim_list = inr l
            /\ List.length l = 2%nat
            /\ consecutive
                 (fun r r' => end_ r = start r' /\ end_ r' = start r' + 1) l.
Proof.
  refine (convert_video_into_ssim_list_contiguous Z
            (fun img column => repeat img (Z.to_nat column))
            (fun img column => repeat img (Z.to_nat column))
            (fun img => img) (fun _ _ => 1%Q)
            (VideoCutter_init None) "v" None three_frames _ _ _).
  - reflexivity.
  - simpl. lia.
  - intros img. simpl. lia.
Defined.

(** ** The merge scan *)

Lemma merge_after_can_merge self another offset :
  can_merge self another offset = true ->
  merge self another offset =
  inr (VideoCutRange_init (video_path self) (start self) (end_ another)
         (ssim self ++ ssim another) (start_time self) (end_time another)).
Proof. intros H. unfold merge. rewrite H. reflexivity. Qed.

Lemma item_Some {A} (l : list A) (i : nat) :
  (i < List.length l)%nat -> exists x, item l i = inr x /\ In x l.
Proof.
  intros H. unfold item.
  destruct (nth_error l i) as [x|] eqn:E.
  - exists x. split; [reflexivity | exact (nth_error_In _ _ E)].
  - apply nth_error_None in E. lia.
Qed.

Lemma last_item_nil {A} : @last_item A [] = inl IndexError.
Proof. reflexivity. Qed.

Lemma last_item_Some {A} (l : list A) :
  l <> [] -> exists x, last_item l = inr x /\ In x l.
Proof.
  intros H. unfold last_item.
  destruct (rev l) as [|x r] eqn:E.
  - apply (f_equal (@rev A)) in E. rewrite rev_involutive in E.
    simpl in E. congruence.
  - exists x. split; [reflexivity|].
    apply in_rev. rewrite E. left. reflexivity.
Qed.

(** The inner loop returns: it stops at an index of the list, not before
    the index it was entered with. *)
Lemma merge_while_returns bound c kw i cur :
  (i + 1 < List.length c)%nat -> (List.length c - 1 - i <= bound)%nat ->
  exists i' cur',
    merge_while bound c kw i cur = inr (i', cur')
    /\ (i <= i' < List.length c)%nat.
Proof.
  revert i cur. induction bound as [|bound IH]; intros i cur Hi Hb; [lia|].
  simpl. destruct (item_Some c (i + 1) Hi) as [next [E _]].
  rewrite E. simpl.
  destruct (can_merge cur next (kw_offset kw)) eqn:M.
  - rewrite (merge_after_can_merge _ _ _ M). simpl.
    destruct (Nat.leb_spec (List.length c) (i + 1 + 1)) as [L|L].
    + eexists _, _. split; [reflexivity | lia].
    + destruct (IH (i + 1)%nat
                  (VideoCutRange_init (video_path cur) (start cur)
                     (end_ next) (ssim cur ++ ssim next) (start_time cur)
                     (end_time next))) as [i' [cur' [E' B]]]; [lia | lia |].
      exists i', cur'. split; [exact E' | lia].
  - eexists _, _. split; [reflexivity | lia].
Qed.

(** The outer loop returns, and emits a range whenever it is entered with
    two candidates or more ahead. *)
Lemma scan_while_returns bound c kw i merged :
  (i <= List.length c < bound + i)%nat ->
  exists emitted,
    scan_while bound c kw i merged = inr (merged ++ emitted)
    /\ ((i + 1 < List.length c)%nat -> emitted <> []).
Proof.
  revert i merged. induction bound as [|bound IH]; intros i merged Hb;
    [lia|].
  simpl.
    destruct (Z.ltb_spec (Z.of_nat i) (Z.of_nat (List.length c) - 1))
      as [L|L].
  - destruct (item_Some c i ltac:(lia)) as [cur [E _]].
    rewrite E. simpl.
    destruct (merge_while_returns (List.length c) c kw i cur
                ltac:(lia) ltac:(lia)) as [i' [cur' [E' B]]].
    rewrite E'. simpl.
    destruct (IH (i' + 1)%nat (merged ++ [cur']) ltac:(lia))
      as [emitted [E'' _]].
    exists (cur' :: emitted). rewrite E'', <- app_assoc.
    split; [reflexivity | discriminate].
  - exists []. rewrite app_nil_r. split; [reflexivity | lia].
Qed.

Lemma insert_by_start_length x l :
  List.length (insert_by_start x l) = S (List.length l).
Proof.
  induction l as [|y l IH]; simpl; [reflexivity|].
  destruct (start x <=? start y); simpl; [reflexivity | now rewrite IH].
Qed.

Lemma sorted_by_start_length l :
  List.length (sorted_by_start l) = List.length l.
Proof.
  induction l as [|x l IH]; simpl; [reflexivity|].
  rewrite insert_by_start_length. now rewrite IH.
Qed.

Section Classification.

Variable frame_ssim : string -> Z -> Z -> float.

(** [get_unstable_range] returns a list exactly when the video has two
    unstable elementary ranges or more; with one, or none, it raises
    [IndexError].  The bound given to the loops of the model is never
    reached. *)
Lemma get_unstable_range_outcome self limit range_threshold kw :
  ((2 <= List.length (change_ranges self kw))%nat ->
   exists l, get_unstable_range frame_ssim self limit range_threshold kw
             = inr l)
  /\ ((List.length (change_ranges self kw) < 2)%nat ->
      get_unstable_range frame_ssim self limit range_threshold kw
      = inl IndexError).
Proof.
  unfold get_unstable_range. fold (change_ranges self kw).
  set (c := change_ranges self kw).
  destruct (scan_while_returns (S (List.length c)) c kw 0 []
              ltac:(lia)) as [emitted [E N]].
  rewrite E. simpl app. split; intros H.
  - cbn [bind Monad_either].
    destruct (last_item_Some c) as [lc [Ec _]];
      [intros C; rewrite C in H; simpl in H; lia|].
    destruct (last_item_Some emitted (N ltac:(lia))) as [lm [Em _]].
    rewrite Ec, Em. eexists. reflexivity.
  - destruct c as [|x [|y c']]; [| |simpl in H; lia].
    + reflexivity.
    + simpl in E. injection E as <-. reflexivity.
Qed.

Lemma get_unstable_range_terminates self limit range_threshold kw :
  get_unstable_range frame_ssim self limit range_threshold kw
  <> inl LoopBound.
Proof.
  destruct (get_unstable_range_outcome self limit range_threshold kw)
    as [A B].
  destruct (Nat.le_gt_cases 2 (List.length (change_ranges self kw)))
    as [H|H].
  - destruct (A H) as [l E]. rewrite E. discriminate.
  - rewrite (B H). discriminate.
Qed.

(** A frame id that no elementary range contains is reported as not
    found; one that some range contains is found. *)
Lemma get_target_range_by_id_not_found self frame_id :
  (forall r, In r (ssim_list self) -> contain r frame_id = false) <->
  get_target_range_by_id self frame_id = inl (RuntimeError frame_id).
Proof.
  unfold get_target_range_by_id.
  induction (ssim_list self) as [|each rest IH]; simpl.
  - split; [reflexivity | intros _ r []].
  - destruct (contain each frame_id) eqn:C.
    + split; [|discriminate].
      intros H. rewrite (H each (or_introl eq_refl)) in C. discriminate.
    + rewrite <- IH. split.
      * intros H r Hr. apply H. right. exact Hr.
      * intros H r [<-|Hr]; [exact C | exact (H r Hr)].
Qed.

End Classification.

(** ** Where the stable ranges meet the unstable ones *)

Lemma bind_inr {A B} (m : result A) (f : A -> result B) (y : B) :
  (x <- m ;; f x) = inr y -> exists x, m = inr x /\ f x = inr y.
Proof.
  destruct m as [e|x]; simpl; [discriminate|].
  intros H. exists x. split; [reflexivity | exact H].
Qed.









Section Overlap.

Variable frame_ssim : string -> Z -> Z -> float.




End Overlap.

(** ** The classification on four videos *)

(** C1 on the scenario of the specification: the unstable range is 20..40
    and the stable ranges are 0..19 and 40..60, so that frame 40 lies in
    the unstable range and in the stable range that follows it. *)
Theorem trailing_stable_range_overlaps :
  get_range no_loop end_to_end None None no_kwargs =
  inr ([mkVideoCutRange "v" 0 19 [1%Q] 0%Q 10%Q;
        mkVideoCutRange "v" 40 60 [1%Q] 40%Q 60%Q],
       [mkVideoCutRange "v" 20 40 [0.40%Q; 0.35%Q] 20%Q 40%Q])
  /\ contain (mkVideoCutRange "v" 40 60 [1%Q] 40%Q 60%Q) 40 = true
  /\ contain (mkVideoCutRange "v" 20 40 [0.40%Q; 0.35%Q] 20%Q 40%Q) 40
     = true.
Proof. repeat split; vm_compute; reflexivity. Qed.

(** C2 on a video in which nothing changes: there is no unstable range,
    and both [get_unstable_range] and [get_range] raise [IndexError]. *)
Theorem still_video_raises :
  change_ranges still_video no_kwargs = []
  /\ get_unstable_range no_loop still_video None None no_kwargs
     = inl IndexError
  /\ get_range no_loop still_video None None no_kwargs = inl IndexError.
Proof. repeat split; vm_compute; reflexivity. Qed.

(** C3 on a video with one unstable elementary range: the range 2..3 is
    the only candidate of the scan, no merged range is emitted for it,
    and [get_unstable_range] raises [IndexError]. *)
Theorem one_change_raises :
  change_ranges one_change no_kwargs = [elementary 2 3 0.40]
  /\ scan_while 2 (change_ranges one_change no_kwargs) no_kwargs 0 []
     = inr []
  /\ get_unstable_range no_loop one_change None None no_kwargs
     = inl IndexError
  /\ get_range no_loop one_change None None no_kwargs = inl IndexError.
Proof. repeat split; vm_compute; reflexivity. Qed.

(** C7 on a video that changes from its first frame on, and on one that
    changes from its second frame on: the unstable list is not empty, and
    [get_range] looks up frame -1, respectively frame 0, which no
    elementary range contains, and reports it as not found. *)
Theorem changes_at_once_not_found :
  get_unstable_range no_loop changes_at_once None None no_kwargs
  = inr [mkVideoCutRange "v" 1 3 [0.40%Q; 0.35%Q] 1%Q 3%Q]
  /\ get_range no_loop changes_at_once None None no_kwargs
     = inl (RuntimeError (-1))
  /\ get_unstable_range no_loop changes_early None None no_kwargs
     = inr [mkVideoCutRange "v" 2 4 [0.40%Q; 0.35%Q] 2%Q 4%Q]
  /\ get_range no_loop changes_early None None no_kwargs
     = inl (RuntimeError 0).
Proof. repeat split; vm_compute; reflexivity. Qed.

(** * Further properties *)

(** ** Ranges *)

(** The constructor orders the bounds it is given: the range starts at the
    smaller and ends at the larger, holds one frame at least, and each
    timestamp stays with its bound; the video and the scores are kept. *)
Theorem VideoCutRange_init_normalizes (path : string) (s e : Z)
    (sc : list float) (st et : float) :
  start (VideoCutRange_init path s e sc st et) = Z.min s e
  /\ end_ (VideoCutRange_init path s e sc st et) = Z.max s e
  /\ 1 <= get_length (VideoCutRange_init path s e sc st et)
  /\ video_path (VideoCutRange_init path s e sc st et) = path
  /\ ssim (VideoCutRange_init path s e sc st et) = sc
  /\ (s <= e ->
      start_time (VideoCutRange_init path s e sc st et) = st
      /\ end_time (VideoCutRange_init path s e sc st et) = et)
  /\ (e < s ->
      start_time (VideoCutRange_init path s e sc st et) = et
      /\ end_time (VideoCutRange_init path s e sc st et) = st).
Proof.
  unfold VideoCutRange_init, get_length.
  destruct (Z.gtb_spec s e); simpl; repeat split; lia.
Qed.

Lemma VideoCutRange_init_normalizes_witness :
  start_time (VideoCutRange_init "v" 9 4 [1%Q] 0.9%Q 0.4%Q) = 0.4%Q
  /\ end_time (VideoCutRange_init "v" 9 4 [1%Q] 0.9%Q 0.4%Q) = 0.9%Q.
Proof.
  refine (proj2 (proj2 (proj2 (proj2 (proj2 (proj2
            (VideoCutRange_init_normalizes "v" 9 4 [1%Q] 0.9%Q 0.4%Q))))))
            _).
  lia.
Defined.

(** A constructed range is rebuilt unchanged from its own fields. *)
Lemma VideoCutRange_init_fields (r : VideoCutRange) :
  well_formed r ->
  VideoCutRange_init (video_path r) (start r) (end_ r) (ssim r)
    (start_time r) (end_time r) = r.
Proof.
  intros W. rewrite VideoCutRange_init_ordered by exact W.
  destruct r; reflexivity.
Qed.

Lemma contain_iff (self : VideoCutRange) (frame_id : Z) :
  contain self frame_id = true <-> start self <= frame_id <= end_ self.
Proof.
  unfold contain. rewrite andb_true_iff, Z.leb_le, Z.ltb_lt. lia.
Qed.

(** Merging two ranges that can merge (no offset) loses no frame and adds
    none: the merged range contains exactly the frames of the one or of
    the other, and is as long as both less the frame they share. *)
Theorem merge_frames (self another merged : VideoCutRange) :
  well_formed self -> well_formed another ->
  merge self another None = inr merged ->
  (forall frame_id,
     contain merged frame_id = true <->
     contain self frame_id = true \/ contain another frame_id = true)
  /\ get_length merged = get_length self + get_length another - 1
  /\ well_formed merged.
Proof.
  intros Ws Wa H. unfold well_formed in *. unfold merge in H.
  destruct (can_merge self another None) eqn:M; [|discriminate].
  apply can_merge_true in M. simpl in M. destruct M as [_ M].
  rewrite VideoCutRange_init_ordered in H by lia.
  injection H as <-. unfold get_length, well_formed. simpl.
  split; [|lia].
  intros f. rewrite !contain_iff. simpl. lia.
Qed.

Lemma merge_frames_witness :
  get_length (mkVideoCutRange "v" 20 40 [0.4%Q; 0.35%Q] 20%Q 40%Q) = 21.
Proof.
  assert (W1 : well_formed (elementary 20 30 0.4)) by (vm_compute; discriminate).
  assert (W2 : well_formed (elementary 30 40 0.35)) by (vm_compute; discriminate).
  exact (proj1 (proj2 (merge_frames (elementary 20 30 0.4)
                         (elementary 30 40 0.35) _ W1 W2 eq_refl))).
Defined.

(** With an offset that bridges a gap, the merged range runs from the
    start of the first range to the end of the second, whatever lies
    between; it contains the frames of both when the first neither
    starts nor ends after the second. *)
Theorem merge_bridges_gap (self another merged : VideoCutRange)
    (offset : option Z) :
  well_formed self -> well_formed another ->
  start self <= end_ another ->
  merge self another offset = inr merged ->
  start merged = start self /\ end_ merged = end_ another
  /\ ssim merged = ssim self ++ ssim another
  /\ (start self <= start another -> end_ self <= end_ another ->
      forall frame_id,
        contain self frame_id = true \/ contain another frame_id = true ->
        contain merged frame_id = true).
Proof.
  intros Ws Wa O H. unfold well_formed in *. unfold merge in H.
  destruct (can_merge self another offset); [|discriminate].
  rewrite VideoCutRange_init_ordered in H by lia.
  injection H as <-. simpl.
  split; [reflexivity|]. split; [reflexivity|]. split; [reflexivity|].
  intros S E f. rewrite !contain_iff. simpl. lia.
Qed.

Lemma merge_bridges_gap_witness :
  start (mkVideoCutRange "v" 0 20 [0.4%Q; 0.3%Q] 0%Q 20%Q) = 0
  /\ end_ (mkVideoCutRange "v" 0 20 [0.4%Q; 0.3%Q] 0%Q 20%Q) = 20.
Proof.
  assert (W1 : well_formed (elementary 0 5 0.4)) by (vm_compute; discriminate).
  assert (W2 : well_formed (elementary 8 20 0.3)) by (vm_compute; discriminate).
  assert (O : start (elementary 0 5 0.4) <= end_ (elementary 8 20 0.3))
    by (vm_compute; discriminate).
  destruct (merge_bridges_gap (elementary 0 5 0.4) (elementary 8 20 0.3)
              _ (Some 3) W1 W2 O eq_refl) as [A [B _]].
  exact (conj A B).
Defined.

(** Merging is associative on ranges that follow one another: if [a] can
    merge [b] and [b] can merge [c], then [a] merged with [b] can merge
    [c], [a] can merge [b] merged with [c], and both orders give the same
    range, from the start of [a] to the end of [c]. *)
Theorem merge_associative (a b c ab bc : VideoCutRange) :
  well_formed a -> well_formed b -> well_formed c ->
  merge a b None = inr ab -> merge b c None = inr bc ->
  can_merge ab c None = true /\ can_merge a bc None = true
  /\ merge ab c None = merge a bc None
  /\ merge ab c None =
     inr (mkVideoCutRange (video_path a) (start a) (end_ c)
            (ssim a ++ ssim b ++ ssim c) (start_time a) (end_time c)).
Proof.
  intros Wa Wb Wc Hab Hbc. unfold well_formed in *.
  unfold merge in Hab, Hbc.
  destruct (can_merge a b None) eqn:Mab; [|discriminate].
  destruct (can_merge b c None) eqn:Mbc; [|discriminate].
  apply can_merge_true in Mab, Mbc. simpl in Mab, Mbc.
  destruct Mab as [Pab Eab], Mbc as [Pbc Ebc].
  rewrite VideoCutRange_init_ordered in Hab, Hbc by lia.
  injection Hab as <-. injection Hbc as <-.
  assert (M1 : can_merge
                 (mkVideoCutRange (video_path a) (start a) (end_ b)
                    (ssim a ++ ssim b) (start_time a) (end_time b))
                 c None = true).
  { apply can_merge_true. simpl. split; congruence. }
  assert (M2 : can_merge a
                 (mkVideoCutRange (video_path b) (start b) (end_ c)
                    (ssim b ++ ssim c) (start_time b) (end_time c))
                 None = true).
  { apply can_merge_true. simpl. split; congruence. }
  split; [exact M1|]. split; [exact M2|].
  unfold merge. rewrite M1, M2. simpl.
  rewrite !VideoCutRange_init_ordered by lia.
  rewrite <- app_assoc. split; reflexivity.
Qed.

Lemma merge_associative_witness :
  merge (mkVideoCutRange "v" 1 3 [0.1%Q; 0.2%Q] 1%Q 3%Q)
        (elementary 3 4 0.3) None
  = merge (elementary 1 2 0.1)
          (mkVideoCutRange "v" 2 4 [0.2%Q; 0.3%Q] 2%Q 4%Q) None.
Proof.
  assert (W1 : well_formed (elementary 1 2 0.1)) by (vm_compute; discriminate).
  assert (W2 : well_formed (elementary 2 3 0.2)) by (vm_compute; discriminate).
  assert (W3 : well_formed (elementary 3 4 0.3)) by (vm_compute; discriminate).
  exact (proj1 (proj2 (proj2
           (merge_associative (elementary 1 2 0.1) (elementary 2 3 0.2)
              (elementary 3 4 0.3) _ _ W1 W2 W3 eq_refl eq_refl)))).
Defined.

(** ** Sampling, lookup and filtering *)





(** [get_target_range_by_id] returns the first elementary range that
    contains the frame: where two ranges share a boundary frame, the
    earlier one answers.  It reports the frame as not found exactly when
    no range contains it, and fails in no other way. *)
Theorem get_target_range_by_id_first (self : VideoCutResult) (frame_id : Z) :
  (forall r,
     get_target_range_by_id self frame_id = inr r <->
     exists before after,
       ssim_list self = before ++ r :: after
       /\ contain r frame_id = true
       /\ forall x, In x before -> contain x frame_id = false)
  /\ (forall e,
        get_target_range_by_id self frame_id = inl e ->
        e = RuntimeError frame_id
        /\ forall x, In x (ssim_list self) -> contain x frame_id = false).
Proof.
  unfold get_target_range_by_id.
  induction (ssim_list self) as [|each rest [IH1 IH2]]; simpl.
  - split.
    + intros r. split; [discriminate|].
      intros [before [after [E _]]]. destruct before; discriminate.
    + intros e H. injection H as <-. split; [reflexivity | intros x []].
  - destruct (contain each frame_id) eqn:C.
    + split; [|discriminate].
      intros r. split.
      * intros H. injection H as <-. exists [], rest.
        split; [reflexivity|]. split; [exact C | intros x []].
      * intros [before [after [E [Cr N]]]].
        destruct before as [|b before].
        -- simpl in E. injection E as -> _. reflexivity.
        -- simpl in E. injection E as -> _.
           rewrite (N b (or_introl eq_refl)) in C. discriminate.
    + split.
      * intros r. rewrite IH1. split.
        -- intros [before [after [E [Cr N]]]].
           exists (each :: before), after. rewrite E.
           split; [reflexivity|]. split; [exact Cr|].
           intros x [<-|H]; [exact C | exact (N x H)].
        -- intros [before [after [E [Cr N]]]].
           destruct before as [|b before].
           ++ simpl in E. injection E as -> _. congruence.
           ++ simpl in E. injection E as -> ->.
              exists before, after. split; [reflexivity|].
              split; [exact Cr|]. intros x H. apply N. right. exact H.
      * intros e H. destruct (IH2 e H) as [-> N].
        split; [reflexivity|].
        intros x [<-|Hx]; [exact C | exact (N x Hx)].
Qed.

(** The length filter keeps a range exactly when it is at least [limit]
    frames long, and keeps the order; a limit of 1 or less drops nothing
    from constructed ranges; filtering twice is filtering by the larger
    limit. *)
Theorem length_filter_keeps (range_list : list VideoCutRange)
    (limit limit' : Z) :
  (forall x, In x (_length_filter range_list limit) <->
             In x range_list /\ limit <= get_length x)
  /\ (forall a b before after,
        _length_filter range_list limit = before ++ a :: after ->
        In b after ->
        exists l1 l2 l3, range_list = l1 ++ a :: l2 ++ b :: l3)
  /\ (limit <= 1 -> Forall well_formed range_list ->
      _length_filter range_list limit = range_list)
  /\ (limit <= limit' ->
      _length_filter (_length_filter range_list limit) limit'
      = _length_filter range_list limit').
Proof.
  unfold _length_filter. split; [|split; [|split]].
  - intros x. rewrite filter_In, Z.geb_le. reflexivity.
  - induction range_list as [|y l IH]; intros a b before after E Hb.
    + destruct before; discriminate.
    + simpl in E. destruct (get_length y >=? limit).
      * destruct before as [|z before]; simpl in E.
        -- injection E as -> E. rewrite <- E in Hb.
           apply filter_In in Hb. destruct Hb as [Hb _].
           apply in_split in Hb. destruct Hb as [l2 [l3 ->]].
           exists [], l2, l3. reflexivity.
        -- injection E as -> E.
           destruct (IH a b before after E Hb) as [l1 [l2 [l3 ->]]].
           exists (z :: l1), l2, l3. reflexivity.
      * destruct (IH a b before after E Hb) as [l1 [l2 [l3 ->]]].
        exists (y :: l1), l2, l3. reflexivity.
  - intros L W. induction W as [|y l Wy W IH]; simpl; [reflexivity|].
    unfold well_formed, get_length in *.
    destruct (Z.geb_spec (end_ y - start y + 1) limit); [|lia].
    now rewrite IH.
  - intros L. induction range_list as [|y l IH]; simpl; [reflexivity|].
    destruct (Z.geb_spec (get_length y) limit);
      simpl; destruct (Z.geb_spec (get_length y) limit');
      try lia; now rewrite IH.
Qed.

Lemma length_filter_keeps_witness :
  _length_filter [elementary 0 19 1; elementary 40 40 1] 1
  = [elementary 0 19 1; elementary 40 40 1].
Proof.
  refine (proj1 (proj2 (proj2 (length_filter_keeps
            [elementary 0 19 1; elementary 40 40 1] 1 1))) _ _).
  - lia.
  - repeat constructor; vm_compute; discriminate.
Defined.

(** ** The pipeline, range by range *)

Section PipelineRanges.

Variable image : Type.
Variables np_vsplit np_hsplit : image -> Z -> list image.
Variable compress_frame : image -> image.
Variable compare_ssim : image -> image -> float.

Lemma least_ssim_fold (pairs : list (image * image)) (acc : float) :
  let m := fold_left
             (fun ssim each =>
                let part_ssim := compare_ssim (fst each) (snd each) in
                if float_gt ssim part_ssim then part_ssim else ssim)
             pairs acc in
  (m <= acc)%Q
  /\ (forall each, In each pairs ->
                   (m <= compare_ssim (fst each) (snd each))%Q)
  /\ (m = acc \/ exists each, In each pairs
                              /\ m = compare_ssim (fst each) (snd each)).
Proof.
  revert acc. induction pairs as [|p pairs IH]; intros acc; cbv zeta.
  - simpl. split; [apply Qle_refl|]. split; [intros each []|].
    left. reflexivity.
  - cbn [fold_left].
    set (acc' := if float_gt acc (compare_ssim (fst p) (snd p))
                 then compare_ssim (fst p) (snd p) else acc).
    destruct (IH acc') as [A [B C]]. cbv zeta in A, B, C.
    assert (L : (acc' <= acc)%Q /\ (acc' <= compare_ssim (fst p) (snd p))%Q
                /\ (acc' = acc \/ acc' = compare_ssim (fst p) (snd p))).
    { unfold acc'.
      destruct (float_gt acc (compare_ssim (fst p) (snd p))) eqn:G.
      - apply float_gt_true in G.
        split; [apply Qlt_le_weak; exact G|].
        split; [apply Qle_refl | right; reflexivity].
      - split; [apply Qle_refl|]. split; [|left; reflexivity].
        unfold float_gt in G. apply negb_false_iff in G.
        apply Qle_bool_iff in G. exact G. }
    destruct L as [L1 [L2 L3]].
    split; [exact (Qle_trans _ _ _ A L1)|]. split.
    + intros each [<-|H]; [exact (Qle_trans _ _ _ A L2) | exact (B each H)].
    + destruct C as [C|[each [H C]]].
      * destruct L3 as [L3|L3].
        -- left. congruence.
        -- right. exists p. split; [left; reflexivity | congruence].
      * right. exists each. split; [right; exact H | exact C].
Qed.

(** The score that the pipeline gives to a pair of frames is the least of
    1 and of the similarities of the blocks compared: it is at most 1, at
    most the similarity of every pair of blocks, and is 1 or the
    similarity of one of them. *)
Theorem least_ssim_is_least (start_part_list end_part_list : list image) :
  (least_ssim image compare_ssim start_part_list end_part_list <= 1)%Q
  /\ (forall a b,
        In (a, b) (combine start_part_list end_part_list) ->
        (least_ssim image compare_ssim start_part_list end_part_list
         <= compare_ssim a b)%Q)
  /\ (least_ssim image compare_ssim start_part_list end_part_list = 1%Q
      \/ exists a b,
           In (a, b) (combine start_part_list end_part_list)
           /\ least_ssim image compare_ssim start_part_list end_part_list
              = compare_ssim a b).
Proof.
  unfold least_ssim.
  destruct (least_ssim_fold (combine start_part_list end_part_list) 1%Q)
    as [A [B C]].
  split; [exact A|]. split.
  - intros a b H. exact (B (a, b) H).
  - destruct C as [C|[[a b] [H C]]]; [left; exact C|].
    right. exists a, b. split; [exact H | exact C].
Qed.

Lemma map_nth_seq {A} (l : list A) (d : A) :
  map (fun n => nth n l d) (seq 0 (List.length l)) = l.
Proof.
  induction l as [|a l IH]; [reflexivity|].
  simpl List.length. rewrite <- cons_seq, <- seq_shift. simpl.
  rewrite map_map. simpl. now rewrite IH.
Qed.

Lemma split_rows_strips origin column indices :
  (forall i, In i indices ->
             (Z.to_nat i < List.length (np_vsplit origin column))%nat) ->
  split_rows image np_vsplit np_hsplit origin column indices
  = inr (map (fun i => np_hsplit
                         (nth (Z.to_nat i) (np_vsplit origin column) origin)
                         column)
             indices).
Proof.
  induction indices as [|i indices IH]; intros H; simpl; [reflexivity|].
  unfold item.
  destruct (nth_error (np_vsplit origin column) (Z.to_nat i)) as [strip|]
    eqn:N.
  - simpl. rewrite IH by (intros j Hj; apply H; right; exact Hj). simpl.
    rewrite (nth_error_nth _ _ origin N). reflexivity.
  - apply nth_error_None in N. specialize (H i (or_introl eq_refl)). lia.
Qed.

(** When numpy cuts an image into [column] strips, [pic_split] returns
    the pieces of the strips, strip after strip; with fewer strips it
    raises [IndexError]. *)
Theorem pic_split_row_major (origin : image) (column : Z) :
  (List.length (np_vsplit origin column) = Z.to_nat column ->
   pic_split image np_vsplit np_hsplit origin column
   = inr (flat_map (fun strip => np_hsplit strip column)
            (np_vsplit origin column)))
  /\ ((List.length (np_vsplit origin column) < Z.to_nat column)%nat ->
      pic_split image np_vsplit np_hsplit origin column = inl IndexError).
Proof.
  split.
  - intros L. unfold pic_split.
    rewrite split_rows_strips
      by (intros i H; apply In_py_range in H; lia).
    simpl. f_equal. rewrite flat_map_concat_map. f_equal.
    unfold py_range. rewrite map_map.
    rewrite <- L. clear L.
    generalize (np_vsplit origin column). intros l.
    rewrite <- (map_nth_seq l origin) at 2.
    rewrite map_map. apply map_ext. intros n. now rewrite Nat2Z.id.
  - intros L. unfold pic_split.
    assert (S : forall indices,
              In (Z.of_nat (List.length (np_vsplit origin column))) indices ->
              (forall i, In i indices -> 0 <= i) ->
              split_rows image np_vsplit np_hsplit origin column indices
              = inl IndexError).
    { induction indices as [|i indices IH]; intros H P; [destruct H|].
      simpl. unfold item.
      destruct (nth_error (np_vsplit origin column) (Z.to_nat i)) eqn:N;
        [|reflexivity].
      simpl. rewrite IH; [reflexivity | |].
      - destruct H as [H|H]; [|exact H]. exfalso.
        assert (K : nth_error (np_vsplit origin column) (Z.to_nat i) = None).
        { apply nth_error_None. rewrite H, Nat2Z.id. lia. }
        congruence.
      - intros j Hj. apply P. right. exact Hj. }
    rewrite S; [reflexivity | |].
    + apply In_py_range. lia.
    + intros i H. apply In_py_range in H. lia.
Qed.

End PipelineRanges.

Section PipelineOutput.

Variable image : Type.
Variables np_vsplit np_hsplit : image -> Z -> list image.
Variable compress_frame : image -> image.
Variable compare_ssim : image -> image -> float.

Lemma ssim_while_ranges self path block reads :
  0 < step self ->
  forall start_frame start_frame_id end_frame_id start_frame_time
         ssim_list out,
    start_frame_id <= end_frame_id ->
    ssim_while image np_vsplit np_hsplit compress_frame compare_ssim
      self path block reads start_frame start_frame_id end_frame_id
      start_frame_time ssim_list = inr out ->
    exists l,
      out = ssim_list ++ l
      /\ forall k r,
           nth_error l k = Some r ->
           video_path r = path
           /\ start r = match k with
                        | O => start_frame_id
                        | S k' => end_frame_id + Z.of_nat k' * step self
                        end
           /\ end_ r = end_frame_id + Z.of_nat k * step self
           /\ start_time r = match k with
                             | O => start_frame_time
                             | S k' => nth k' (map snd reads) 0%Q
                             end
           /\ end_time r = nth k (map snd reads) 0%Q
           /\ exists score, ssim r = [score] /\ (score <= 1)%Q.
Proof.
  intros S. induction reads as [|[end_frame end_frame_time] reads IH];
    intros start_frame sid eid stime acc out O H; simpl in H.
  - injection H as <-. exists []. rewrite app_nil_r. split; [reflexivity|].
    intros [|k] r; discriminate.
  - apply bind_inr in H. destruct H as [sp [_ H]].
    apply bind_inr in H. destruct H as [ep [_ H]].
    apply IH in H; [|lia]. destruct H as [l [-> P]].
    eexists. rewrite <- app_assoc. split; [reflexivity|].
    intros [|k] r Hr; simpl in Hr.
    + injection Hr as <-.
      rewrite VideoCutRange_init_ordered by exact O. simpl.
      repeat split; try lia.
      eexists. split; [reflexivity|].
      apply (least_ssim_fold image compare_ssim (combine sp ep) 1%Q).
    + destruct (P k r Hr) as [P1 [P2 [P3 [P4 [P5 P6]]]]].
      split; [exact P1|]. split.
      { rewrite P2. destruct k; lia. }
      split; [rewrite P3; lia|]. split.
      { rewrite P4. destruct k; reflexivity. }
      split; [exact P5 | exact P6].
Qed.

(** The ranges that the pipeline returns, one by one: range [k] belongs
    to the video, ends at frame [second_frame_id + k * step] and starts
    where range [k - 1] ended (the first starts at the first frame read);
    it starts at the time at which range [k - 1] ended and ends at the
    time read with frame [k]; it carries one score, at most 1. *)
Theorem convert_video_into_ssim_list_ranges (self : VideoCutter)
    (path : string) (block : option Z) (cap : capture image)
    (l : list VideoCutRange) :
  0 < step self ->
  first_frame_id image cap <= second_frame_id image cap ->
  convert_video_into_ssim_list image np_vsplit np_hsplit compress_frame
    compare_ssim self path block cap = inr l ->
  forall k r,
    nth_error l k = Some r ->
    video_path r = path
    /\ start r = match k with
                 | O => first_frame_id image cap
                 | S k' => second_frame_id image cap
                           + Z.of_nat k' * step self
                 end
    /\ end_ r = second_frame_id image cap + Z.of_nat k * step self
    /\ start_time r = match k with
                      | O => first_frame_time image cap
                      | S k' => nth k' (map snd (frames image cap)) 0%Q
                      end
    /\ end_time r = nth k (map snd (frames image cap)) 0%Q
    /\ exists score, ssim r = [score] /\ (score <= 1)%Q.
Proof.
  intros S O H. unfold convert_video_into_ssim_list in H.
  apply ssim_while_ranges in H; [|exact S|exact O].
  destruct H as [l' [-> P]]. exact P.
Qed.

End PipelineOutput.


Lemma convert_video_into_ssim_list_ranges_witness :
  start (mkVideoCutRange "v" 2 3 [1%Q] 0.2%Q 0.3%Q) = 2 + Z.of_nat 0 * 1
  /\ end_ (mkVideoCutRange "v" 2 3 [1%Q] 0.2%Q 0.3%Q) = 2 + Z.of_nat 1 * 1
  /\ end_time (mkVideoCutRange "v" 2 3 [1%Q] 0.2%Q 0.3%Q) = 0.3%Q.
Proof.
  assert (S : 0 < step (VideoCutter_init None)) by reflexivity.
  assert (O : first_frame_id Z three_frames <= second_frame_id Z three_frames)
    by (simpl; lia).
  destruct (convert_video_into_ssim_list_ranges Z
              (fun img column => repeat img (Z.to_nat column))
              (fun img column => repeat img (Z.to_nat column))
              (fun img => img) (fun _ _ => 1%Q)
              (VideoCutter_init None) "v" None three_frames _ S O eq_refl
              1%nat _ eq_refl) as [_ [A [B [_ [C _]]]]].
  exact (conj A (conj B C)).
Defined.

(** ** The merge scan as a fold *)

Lemma in_sequence_tail a l : in_sequence (a :: l) -> in_sequence l.
Proof. intros [_ [_ H]]. exact H. Qed.

Lemma in_sequence_head a l : in_sequence (a :: l) -> well_formed a.
Proof. intros [H _]. exact H. Qed.

Lemma in_sequence_after a l :
  in_sequence (a :: l) ->
  forall b, In b l ->
            end_ a <= start b /\ video_path a = video_path b
            /\ well_formed b.
Proof.
  revert a. induction l as [|x l IH]; intros a H b Hb; [destruct Hb|].
  destruct H as [Wa [[E P] H]].
  destruct Hb as [<-|Hb].
  - split; [exact E|]. split; [exact P | exact (in_sequence_head _ _ H)].
  - destruct (IH x H b Hb) as [E' [P' W']].
    pose proof (in_sequence_head _ _ H) as Wx. unfold well_formed in *.
    split; [lia|]. split; [congruence | exact W'].
Qed.

Lemma in_sequence_filter (f : VideoCutRange -> bool) l :
  in_sequence l -> in_sequence (filter f l).
Proof.
  induction l as [|a l IH]; intros H; [exact I|].
  simpl. pose proof (IH (in_sequence_tail _ _ H)) as T.
  destruct (f a); [|exact T].
  split; [exact (in_sequence_head _ _ H)|]. split; [|exact T].
  destruct (filter f l) as [|b l'] eqn:E; [exact I|].
  assert (Hb : In b l).
  { assert (K : In b (filter f l)) by (rewrite E; left; reflexivity).
    apply filter_In in K. exact (proj1 K). }
  destruct (in_sequence_after a l H b Hb) as [A [B _]]. split; assumption.
Qed.

Lemma sorted_by_start_in_sequence l :
  in_sequence l -> sorted_by_start l = l.
Proof.
  induction l as [|a l IH]; intros H; [reflexivity|].
  simpl. rewrite (IH (in_sequence_tail _ _ H)).
  destruct l as [|b l]; [reflexivity|]. simpl.
  destruct H as [Wa [[E _] _]]. unfold well_formed in Wa.
  destruct (Z.leb_spec (start a) (start b)); [reflexivity | lia].
Qed.

Lemma change_ranges_in_sequence self kw :
  in_sequence (ssim_list self) ->
  in_sequence (change_ranges self kw)
  /\ change_ranges self kw
     = filter (fun i => negb (is_stable i (kw_threshold kw)))
         (ssim_list self).
Proof.
  intros H. unfold change_ranges.
  rewrite sorted_by_start_in_sequence by (apply in_sequence_filter; exact H).
  split; [apply in_sequence_filter; exact H | reflexivity].
Qed.

Lemma item_middle {A} (pre : list A) (x : A) (rest : list A) :
  item (pre ++ x :: rest) (List.length pre) = inr x.
Proof.
  unfold item. rewrite nth_error_app2 by lia.
  rewrite Nat.sub_diag. reflexivity.
Qed.

Lemma item_next {A} (pre : list A) (x y : A) (rest : list A) :
  item (pre ++ x :: y :: rest) (List.length pre + 1) = inr y.
Proof.
  unfold item. rewrite nth_error_app2 by lia.
  replace (List.length pre + 1 - List.length pre)%nat with 1%nat by lia.
  reflexivity.
Qed.

Lemma last_item_snoc {A} (l : list A) (x : A) : last_item (l ++ [x]) = inr x.
Proof. unfold last_item. rewrite rev_app_distr. reflexivity. Qed.

Lemma last_item_cons {A} (x y : A) (l : list A) :
  last_item (x :: y :: l) = last_item (y :: l).
Proof.
  unfold last_item. simpl.
  destruct (rev l) as [|z r]; reflexivity.
Qed.

(** A candidate that cannot be merged into the accumulator starts after
    the accumulator ends. *)
Lemma cannot_merge_apart cur next offset :
  0 <= offset_value offset ->
  end_ cur <= start next -> video_path cur = video_path next ->
  can_merge cur next offset = false -> end_ cur < start next.
Proof.
  intros O E P M.
  destruct (Z_lt_le_dec (end_ cur) (start next)) as [L|L]; [exact L|].
  assert (T : can_merge cur next offset = true).
  { apply can_merge_true. split; [exact P|].
    destruct (Z.eqb_spec (offset_value offset) 0); lia. }
  congruence.
Qed.

Section Scan.

Variable c : list VideoCutRange.
Variable kw : kwargs.
Hypothesis offset_not_negative : 0 <= offset_value (kw_offset kw).

(** The inner loop folds candidates into the accumulator as
    [greedy_merge] does, and stops at the first that cannot be merged. *)
Lemma merge_while_greedy rest :
  forall pre x cur bound,
    c = pre ++ x :: rest -> rest <> [] ->
    (List.length rest <= bound)%nat ->
    end_ cur = end_ x -> video_path cur = video_path x ->
    well_formed cur -> in_sequence (x :: rest) ->
    exists pre' x' rest' cur',
      merge_while bound c kw (List.length pre) cur
      = inr (List.length pre', cur')
      /\ c = pre' ++ x' :: rest'
      /\ end_ cur' = end_ x' /\ well_formed cur'
      /\ in_sequence (x' :: rest')
      /\ (List.length rest' <= List.length rest)%nat
      /\ greedy_merge cur rest (kw_offset kw)
         = cur' :: merged_ranges rest' (kw_offset kw)
      /\ (forall y r, rest' = y :: r -> end_ cur' < start y).
Proof.
  induction rest as [|next rest1 IH];
    intros pre x cur bound C N B E P W S; [congruence|].
  destruct bound as [|bound]; [simpl in B; lia|].
  destruct S as [Wx [[Exn Pxn] S]].
  pose proof (in_sequence_head _ _ S) as Wn.
  assert (I1 : item c (List.length pre + 1) = inr next)
    by (rewrite C; apply item_next).
  simpl merge_while. rewrite I1. simpl.
  destruct (can_merge cur next (kw_offset kw)) eqn:M.
  - rewrite (merge_after_can_merge _ _ _ M). simpl.
    unfold well_formed in *.
    rewrite VideoCutRange_init_ordered by lia.
    set (cur2 := mkVideoCutRange (video_path cur) (start cur) (end_ next)
                   (ssim cur ++ ssim next) (start_time cur) (end_time next)).
    assert (C2 : c = (pre ++ [x]) ++ next :: rest1)
      by (rewrite <- app_assoc; exact C).
    assert (L2 : List.length (pre ++ [x]) = (List.length pre + 1)%nat)
      by (rewrite length_app; reflexivity).
    destruct rest1 as [|y rest2].
    + destruct (Nat.leb_spec (List.length c) (List.length pre + 1 + 1))
        as [_|K]; [|rewrite C, length_app in K; simpl in K; lia].
      exists (pre ++ [x]), next, [], cur2.
      rewrite L2. split; [reflexivity|]. split; [exact C2|].
      split; [reflexivity|]. split; [simpl; lia|].
      split; [exact S|]. split; [simpl; lia|].
      split; [reflexivity|].
      intros y r H. discriminate.
    + destruct (Nat.leb_spec (List.length c) (List.length pre + 1 + 1))
        as [K|_]; [rewrite C, length_app in K; simpl in K; lia|].
      destruct (IH (pre ++ [x]) next cur2 bound C2 ltac:(discriminate)
                  ltac:(simpl in *; lia) eq_refl
                  ltac:(simpl; congruence) ltac:(simpl; lia) S)
        as [pre' [x' [rest' [cur' [R1 [R2 [R3 [R4 [R5 [R6 [R7 R8]]]]]]]]]]].
      exists pre', x', rest', cur'. rewrite L2 in R1.
      split; [exact R1|]. split; [exact R2|]. split; [exact R3|].
      split; [exact R4|]. split; [exact R5|].
      split; [simpl in *; lia|]. split; [exact R7 | exact R8].
  - exists pre, x, (next :: rest1), cur.
    split; [reflexivity|]. split; [exact C|]. split; [exact E|].
    split; [exact W|]. split; [split; [exact Wx|split; [split|]]; assumption|].
    split; [apply Nat.le_refl|].
    split; [reflexivity|].
    intros y r H. injection H as <- <-.
    apply (cannot_merge_apart cur next (kw_offset kw));
      [exact offset_not_negative | lia | congruence | exact M].
Qed.

(** The outer loop emits the ranges of [merged_ranges], but for the last
    candidate when it was not folded into the range emitted before it. *)
Lemma scan_while_greedy lc (Hlc : last_item c = inr lc) bound :
  forall pre x rest merged,
    c = pre ++ x :: rest -> rest <> [] ->
    (List.length rest + 2 <= bound)%nat ->
    in_sequence (x :: rest) ->
    exists emitted lm,
      scan_while bound c kw (List.length pre) merged = inr (merged ++ emitted)
      /\ last_item emitted = inr lm
      /\ ((merged_ranges (x :: rest) (kw_offset kw) = emitted
           /\ start lc <= end_ lm)
          \/ (merged_ranges (x :: rest) (kw_offset kw) = emitted ++ [lc]
              /\ end_ lm < start lc)).
Proof.
  induction bound as [|bound IH]; intros pre x rest merged C N B S; [lia|].
  simpl scan_while.
  assert (Lc : List.length c = (List.length pre + 1 + List.length rest)%nat)
    by (rewrite C, length_app; simpl; lia).
  assert (Lr : (0 < List.length rest)%nat)
    by (destruct rest; [congruence | simpl; lia]).
  destruct (Z.ltb_spec (Z.of_nat (List.length pre))
              (Z.of_nat (List.length c) - 1)) as [_|K]; [|lia].
  assert (I0 : item c (List.length pre) = inr x)
    by (rewrite C; apply item_middle).
  rewrite I0. simpl.
  destruct (merge_while_greedy rest pre x x (List.length c) C N
              ltac:(lia) eq_refl eq_refl (in_sequence_head _ _ S) S)
    as [pre' [x' [rest' [cur' [R1 [R2 [R3 [R4 [R5 [R6 [R7 R8]]]]]]]]]]].
  rewrite R1. simpl.
  assert (Lc' : List.length c
                = (List.length pre' + 1 + List.length rest')%nat)
    by (rewrite R2, length_app; simpl; lia).
  simpl merged_ranges. rewrite R7.
  destruct rest' as [|y [|y2 r]].
  - (* every candidate was folded *)
    destruct bound as [|bound]; [lia|]. simpl scan_while.
    destruct (Z.ltb_spec (Z.of_nat (List.length pre' + 1))
                (Z.of_nat (List.length c) - 1)) as [K|_];
      [simpl in Lc'; lia|].
    exists [cur'], cur'. split; [reflexivity|]. split; [reflexivity|].
    left. split; [reflexivity|].
    rewrite R2, last_item_snoc in Hlc. injection Hlc as <-.
    pose proof (in_sequence_head _ _ R5) as Wx'.
    unfold well_formed in Wx'. lia.
  - (* the last candidate is left *)
    destruct bound as [|bound]; [lia|]. simpl scan_while.
    destruct (Z.ltb_spec (Z.of_nat (List.length pre' + 1))
                (Z.of_nat (List.length c) - 1)) as [K|_];
      [simpl in Lc'; lia|].
    exists [cur'], cur'. split; [reflexivity|]. split; [reflexivity|].
    right.
    assert (E : lc = y).
    { rewrite R2 in Hlc.
      replace (pre' ++ [x'; y]) with ((pre' ++ [x']) ++ [y]) in Hlc
        by (rewrite <- app_assoc; reflexivity).
      rewrite last_item_snoc in Hlc. congruence. }
    rewrite E. split; [reflexivity | exact (R8 y [] eq_refl)].
  - (* the scan goes on from the next candidate *)
    assert (C' : c = (pre' ++ [x']) ++ y :: y2 :: r)
      by (rewrite <- app_assoc; exact R2).
    destruct (IH (pre' ++ [x']) y (y2 :: r) (merged ++ [cur']) C'
                ltac:(discriminate) ltac:(simpl in *; lia)
                (in_sequence_tail _ _ R5))
      as [emitted [lm [Q1 [Q2 Q3]]]].
    rewrite length_app in Q1. simpl in Q1.
    exists (cur' :: emitted), lm.
    split; [rewrite Q1, <- app_assoc; reflexivity|].
    split.
    { destruct emitted as [|e emitted]; [discriminate Q2|].
      rewrite last_item_cons. exact Q2. }
    simpl merged_ranges in Q3.
    destruct Q3 as [[Q3 Q4]|[Q3 Q4]].
    + left. split; [simpl; rewrite Q3; reflexivity | exact Q4].
    + right. split; [simpl; rewrite Q3; reflexivity | exact Q4].
Qed.

End Scan.

Lemma cannot_merge_gap cur next offset :
  0 <= offset_value offset ->
  end_ cur <= start next -> video_path cur = video_path next ->
  can_merge cur next offset = false ->
  end_ cur + offset_value offset < start next.
Proof.
  intros O E P M.
  destruct (Z_lt_le_dec (end_ cur + offset_value offset) (start next))
    as [L|L]; [exact L|].
  assert (T : can_merge cur next offset = true).
  { apply can_merge_true. split; [exact P|].
    destruct (Z.eqb_spec (offset_value offset) 0); lia. }
  congruence.
Qed.

(** No score is lost, repeated or moved by the fold. *)
Lemma greedy_merge_scores cur rest offset :
  List.concat (map ssim (greedy_merge cur rest offset))
  = ssim cur ++ List.concat (map ssim rest).
Proof.
  revert cur. induction rest as [|next rest IH]; intros cur; simpl.
  - reflexivity.
  - destruct (can_merge cur next offset); simpl.
    + rewrite IH.
      assert (E : forall p s e sc st et,
                ssim (VideoCutRange_init p s e sc st et) = sc)
        by (intros; unfold VideoCutRange_init;
            destruct (_ >? _); reflexivity).
      rewrite E, <- app_assoc. reflexivity.
    + rewrite IH. reflexivity.
Qed.

(** The ranges that the fold emits are apart, and the first starts where
    the accumulator does. *)
Lemma greedy_merge_apart offset rest :
  0 <= offset_value offset ->
  forall cur x,
    end_ cur = end_ x -> video_path cur = video_path x ->
    well_formed cur -> in_sequence (x :: rest) ->
    exists u out,
      greedy_merge cur rest offset = u :: out
      /\ start u = start cur /\ video_path u = video_path cur
      /\ apart (offset_value offset) (u :: out).
Proof.
  intros O. induction rest as [|next rest IH]; intros cur x E P W S.
  - exists cur, []. repeat split. exact W.
  - destruct S as [Wx [[Exn Pxn] S]].
    pose proof (in_sequence_head _ _ S) as Wn.
    unfold well_formed in *. simpl.
    destruct (can_merge cur next offset) eqn:M.
    + rewrite VideoCutRange_init_ordered by lia.
      destruct (IH (mkVideoCutRange (video_path cur) (start cur) (end_ next)
                      (ssim cur ++ ssim next) (start_time cur)
                      (end_time next)) next eq_refl
                  ltac:(simpl; congruence) ltac:(simpl; lia) S)
        as [u [out [G [A [B C]]]]].
      simpl in A, B. exists u, out.
      split; [exact G|]. split; [exact A|]. split; [exact B | exact C].
    + destruct (IH next next eq_refl eq_refl Wn S)
        as [u [out [G [A [B C]]]]].
      exists cur, (u :: out). rewrite G.
      split; [reflexivity|]. split; [reflexivity|]. split; [reflexivity|].
      split; [exact W|]. split; [|exact C].
      rewrite A, B. split; [|congruence].
      apply cannot_merge_gap; [exact O | lia | congruence | exact M].
Qed.

(** Every candidate lies within one of the ranges that the fold emits. *)
Lemma greedy_merge_covers offset rest :
  forall cur x,
    end_ cur = end_ x -> well_formed cur -> in_sequence (x :: rest) ->
    forall z, within z cur \/ In z rest ->
              exists u, In u (greedy_merge cur rest offset) /\ within z u.
Proof.
  induction rest as [|next rest IH]; intros cur x E W S z Hz.
  - destruct Hz as [Hz|[]]. exists cur. split; [left; reflexivity | exact Hz].
  - destruct S as [Wx [[Exn Pxn] S]].
    pose proof (in_sequence_head _ _ S) as Wn.
    unfold well_formed, within in *. simpl.
    destruct (can_merge cur next offset) eqn:M.
    + rewrite VideoCutRange_init_ordered by lia.
      apply (IH (mkVideoCutRange (video_path cur) (start cur) (end_ next)
                   (ssim cur ++ ssim next) (start_time cur) (end_time next))
                next eq_refl ltac:(simpl; lia) S).
      destruct Hz as [Hz|[<-|Hz]]; simpl.
      * left. lia.
      * left. lia.
      * right. exact Hz.
    + destruct Hz as [Hz|Hz].
      * exists cur. split; [left; reflexivity | exact Hz].
      * destruct (IH next next eq_refl Wn S z) as [u [Hu Hw]].
        { destruct Hz as [<-|Hz]; [left; lia | right; exact Hz]. }
        exists u. split; [right; exact Hu | exact Hw].
Qed.

Lemma apart_after gap a l :
  0 <= gap -> apart gap (a :: l) ->
  forall b, In b l -> end_ a + gap < start b /\ well_formed b.
Proof.
  intros G. revert a. induction l as [|x l IH]; intros a H b Hb;
    [destruct Hb|].
  destruct H as [Wa [[E P] H]].
  assert (Wx : well_formed x) by (destruct H as [Wx _]; exact Wx).
  destruct Hb as [<-|Hb]; [split; assumption|].
  destruct (IH x H b Hb) as [E' W']. unfold well_formed in *.
  split; [lia | exact W'].
Qed.

(** Ranges that are apart share no frame. *)
Lemma apart_disjoint gap l :
  0 <= gap -> apart gap l ->
  forall i j u u' frame_id,
    (i < j)%nat -> nth_error l i = Some u -> nth_error l j = Some u' ->
    contain u frame_id = true -> contain u' frame_id = false.
Proof.
  intros G. induction l as [|a l IH]; intros H i j u u' f L Hi Hj C.
  - destruct i; discriminate.
  - destruct j as [|j]; [lia|]. simpl in Hj.
    destruct i as [|i].
    + simpl in Hi. injection Hi as <-.
      destruct (apart_after gap a l G H u' (nth_error_In _ _ Hj)) as [E _].
      apply contain_iff in C.
      destruct (contain u' f) eqn:C'; [|reflexivity].
      apply contain_iff in C'. lia.
    + simpl in Hi. destruct H as [_ [_ H]].
      exact (IH H i j u u' f ltac:(lia) Hi Hj C).
Qed.

Section ScanResult.

Variable frame_ssim : string -> Z -> Z -> float.

(** On elementary ranges that follow one another, with an offset that is
    not negative and two unstable ranges or more, [get_unstable_range]
    returns the ranges of the fold, filtered. *)
Lemma get_unstable_range_fold self limit range_threshold kw :
  in_sequence (ssim_list self) ->
  0 <= offset_value (kw_offset kw) ->
  (2 <= List.length (change_ranges self kw))%nat ->
  get_unstable_range frame_ssim self limit range_threshold kw
  = inr (unstable_filters frame_ssim limit range_threshold
           (merged_ranges (change_ranges self kw) (kw_offset kw))).
Proof.
  intros Sq O L. unfold get_unstable_range. fold (change_ranges self kw).
  destruct (change_ranges_in_sequence self kw Sq) as [Sc _].
  destruct (change_ranges self kw) as [|x [|y rest]] eqn:C;
    [simpl in L; lia | simpl in L; lia |].
  destruct (last_item_Some (x :: y :: rest) ltac:(discriminate))
    as [lc [Hlc _]].
  destruct (scan_while_greedy (x :: y :: rest) kw O lc Hlc
              (S (List.length (x :: y :: rest))) [] x (y :: rest) []
              eq_refl ltac:(discriminate) ltac:(simpl; lia) Sc)
    as [emitted [lm [E [Hlm Q]]]].
  cbn [List.length app] in E |- *.
  rewrite E. cbn [bind Monad_either]. rewrite Hlc, Hlm.
  cbn [bind Monad_either ret]. unfold unstable_filters. f_equal.
  destruct Q as [[Q B]|[Q B]].
  - destruct (Z.gtb_spec (start lc) (end_ lm)); [lia|]. rewrite Q.
    reflexivity.
  - destruct (Z.gtb_spec (start lc) (end_ lm)); [|lia]. rewrite Q.
    reflexivity.
Qed.

End ScanResult.

(** ** The unstable ranges of a video whose ranges follow one another *)

Lemma end_to_end_in_sequence : in_sequence (ssim_list end_to_end).
Proof.
  simpl. unfold well_formed.
  repeat split; try reflexivity; vm_compute; discriminate.
Qed.

(** Refinement of the merge scan.  On elementary ranges that follow one
    another, with an offset that is not negative and at least two
    unstable ranges, the index loops of [get_unstable_range] return what
    the fold of the specification returns, passed through the length and
    loop filters. *)
Theorem get_unstable_range_is_fold
    (frame_ssim : string -> Z -> Z -> float) (self : VideoCutResult)
    (limit : option Z) (range_threshold : option float) (kw : kwargs) :
  in_sequence (ssim_list self) ->
  0 <= offset_value (kw_offset kw) ->
  (2 <= List.length (change_ranges self kw))%nat ->
  get_unstable_range frame_ssim self limit range_threshold kw
  = inr (unstable_filters frame_ssim limit range_threshold
           (merged_ranges (change_ranges self kw) (kw_offset kw))).
Proof. apply get_unstable_range_fold. Qed.

Lemma get_unstable_range_is_fold_witness :
  get_unstable_range no_loop end_to_end None None no_kwargs
  = inr [mkVideoCutRange "v" 20 40 [0.40%Q; 0.35%Q] 20%Q 40%Q].
Proof.
  refine (get_unstable_range_is_fold no_loop end_to_end None None no_kwargs
            end_to_end_in_sequence _ _).
  - simpl. lia.
  - vm_compute. lia.
Defined.

(** The unstable ranges returned, unfiltered, for such a video: they
    carry the scores of the unstable elementary ranges, in order, none
    lost and none repeated; they are well formed, in ascending order,
    each starting more than [offset] frames after the one before ends, so
    that no frame lies in two of them; and every unstable elementary
    range lies within one of them. *)
Theorem get_unstable_range_ranges
    (frame_ssim : string -> Z -> Z -> float) (self : VideoCutResult)
    (kw : kwargs) :
  in_sequence (ssim_list self) ->
  0 <= offset_value (kw_offset kw) ->
  (2 <= List.length (change_ranges self kw))%nat ->
  exists l,
    get_unstable_range frame_ssim self None None kw = inr l
    /\ List.concat (map ssim l)
       = List.concat (map ssim (change_ranges self kw))
    /\ apart (offset_value (kw_offset kw)) l
    /\ (forall i j u u' frame_id,
          (i < j)%nat -> nth_error l i = Some u -> nth_error l j = Some u' ->
          contain u frame_id = true -> contain u' frame_id = false)
    /\ (forall z, In z (change_ranges self kw) ->
                  exists u, In u l /\ within z u).
Proof.
  intros Sq O L.
  rewrite (get_unstable_range_fold frame_ssim self None None kw Sq O L).
  eexists. split; [reflexivity|].
  change (unstable_filters frame_ssim None None
            (merged_ranges (change_ranges self kw) (kw_offset kw)))
    with (merged_ranges (change_ranges self kw) (kw_offset kw)).
  destruct (change_ranges_in_sequence self kw Sq) as [Sc _].
  destruct (change_ranges self kw) as [|x rest]; [simpl in L; lia|].
  simpl merged_ranges.
  destruct (greedy_merge_apart (kw_offset kw) rest O x x eq_refl eq_refl
              (in_sequence_head _ _ Sc) Sc) as [u [out [G [_ [_ A]]]]].
  split; [apply greedy_merge_scores|].
  split; [rewrite G; exact A|].
  split; [rewrite G; apply (apart_disjoint _ _ O A)|].
  intros z Hz.
  apply (greedy_merge_covers (kw_offset kw) rest x x eq_refl
           (in_sequence_head _ _ Sc) Sc).
  destruct Hz as [<-|Hz]; [left | right; exact Hz].
  pose proof (in_sequence_head _ _ Sc) as W. unfold within. lia.
Qed.

Lemma get_unstable_range_ranges_witness :
  exists l,
    get_unstable_range no_loop end_to_end None None no_kwargs = inr l
    /\ List.concat (map ssim l)
       = List.concat (map ssim (change_ranges end_to_end no_kwargs))
    /\ apart 0 l
    /\ (forall i j u u' frame_id,
          (i < j)%nat -> nth_error l i = Some u -> nth_error l j = Some u' ->
          contain u frame_id = true -> contain u' frame_id = false)
    /\ (forall z, In z (change_ranges end_to_end no_kwargs) ->
                  exists u, In u l /\ within z u).
Proof.
  refine (get_unstable_range_ranges no_loop end_to_end no_kwargs
            end_to_end_in_sequence _ _).
  - simpl. lia.
  - vm_compute. lia.
Defined.

(** ** When [get_range] returns *)

Lemma contiguous_in_sequence l : contiguous l -> in_sequence l.
Proof.
  induction l as [|a l IH]; intros H; [exact I|].
  destruct H as [W [N H]]. split; [unfold well_formed; lia|].
  split; [|exact (IH H)].
  destruct l as [|b l]; [exact I|]. destruct N as [E P].
  split; [lia | exact P].
Qed.

Lemma last_cons {A} (l : list A) (x a : A) : last (x :: l) a = last l x.
Proof.
  revert x a. induction l as [|y l IH]; intros x a; [reflexivity|].
  change (last (x :: y :: l) a) with (last (y :: l) a).
  rewrite (IH y a), (IH y x). reflexivity.
Qed.

Lemma contiguous_bounds a l :
  contiguous (a :: l) ->
  forall b, In b (a :: l) ->
            start a <= start b /\ end_ b <= end_ (last l a)
            /\ start b < end_ b.
Proof.
  revert a. induction l as [|x l IH]; intros a H b Hb.
  - destruct Hb as [<-|[]]. destruct H as [W _]. simpl. lia.
  - destruct H as [W [[E P] H]].
    assert (Hx : start x <= start x /\ end_ x <= end_ (last l x)
                 /\ start x < end_ x) by (apply (IH x H); left; reflexivity).
    rewrite last_cons.
    destruct Hb as [<-|Hb]; [lia|].
    destruct (IH x H b Hb) as [B1 [B2 B3]]. lia.
Qed.

Lemma last_item_last {A} (a : A) (l : list A) :
  last_item (a :: l) = inr (last l a).
Proof.
  revert a. induction l as [|x l IH]; intros a; [reflexivity|].
  rewrite last_item_cons, IH, last_cons. reflexivity.
Qed.

(** The elementary ranges of such a video contain exactly the frames
    from the start of the first to the end of the last. *)
Lemma first_containing_covered a l frame_id :
  contiguous (a :: l) ->
  (start a <= frame_id <= end_ (last l a) ->
   exists r, first_containing (a :: l) frame_id = inr r)
  /\ (frame_id < start a ->
      first_containing (a :: l) frame_id = inl (RuntimeError frame_id)).
Proof.
  intros H. split.
  - revert a H. induction l as [|x l IH]; intros a H B; simpl.
    + destruct (contain a frame_id) eqn:C; [eexists; reflexivity|].
      assert (K : contain a frame_id = true)
        by (apply contain_iff; simpl in B; lia).
      congruence.
    + destruct (contain a frame_id) eqn:C; [eexists; reflexivity|].
      destruct H as [W [[E P] H]].
      apply (IH x H).
      assert (K : ~ (start a <= frame_id <= end_ a)).
      { intros K. apply contain_iff in K. congruence. }
      rewrite last_cons in B. lia.
  - intros B.
    apply (get_target_range_by_id_not_found (mkVideoCutResult ""%string
                                               (a :: l)) frame_id).
    intros r Hr. simpl in Hr.
    destruct (contiguous_bounds a l H r Hr) as [B1 _].
    destruct (contain r frame_id) eqn:C; [|reflexivity].
    apply contain_iff in C. lia.
Qed.

(** The ranges that the fold emits stay between the bounds of the
    candidates, and span a step at least. *)
Lemma greedy_merge_bounded offset lo hi rest :
  forall cur x,
    end_ cur = end_ x -> start cur < end_ cur -> lo <= start cur ->
    in_sequence (x :: rest) ->
    (forall z, In z (x :: rest) ->
               lo <= start z /\ end_ z <= hi /\ start z < end_ z) ->
    forall u, In u (greedy_merge cur rest offset) ->
              lo <= start u /\ end_ u <= hi /\ start u < end_ u.
Proof.
  induction rest as [|next rest IH]; intros cur x E W L S B u Hu.
  - destruct Hu as [<-|[]].
    destruct (B x (or_introl eq_refl)) as [_ [B2 _]]. lia.
  - destruct S as [Wx [[Exn Pxn] S]].
    destruct (B next (or_intror (or_introl eq_refl))) as [N1 [N2 N3]].
    assert (B' : forall z, In z (next :: rest) ->
                           lo <= start z /\ end_ z <= hi /\ start z < end_ z)
      by (intros z Hz; apply B; right; exact Hz).
    simpl in Hu. destruct (can_merge cur next offset).
    + rewrite VideoCutRange_init_ordered in Hu by lia.
      apply (IH (mkVideoCutRange (video_path cur) (start cur) (end_ next)
                   (ssim cur ++ ssim next) (start_time cur) (end_time next))
                next eq_refl ltac:(simpl; lia) ltac:(simpl; lia) S B' u Hu).
    + destruct Hu as [<-|Hu].
      * destruct (B x (or_introl eq_refl)) as [_ [B2 _]]. lia.
      * exact (IH next next eq_refl N3 N1 S B' u Hu).
Qed.

Lemma apart_nth gap l i u u' :
  apart gap l -> nth_error l i = Some u -> nth_error l (S i) = Some u' ->
  end_ u + gap < start u'.
Proof.
  revert i. induction l as [|a l IH]; intros i H Hi Hj;
    [destruct i; discriminate|].
  destruct H as [_ [N H]]. destruct i as [|i].
  - simpl in Hi, Hj. injection Hi as <-.
    destruct l as [|b l]; [discriminate|]. simpl in Hj. injection Hj as <-.
    exact (proj1 N).
  - simpl in Hi. change (nth_error (a :: l) (S (S i)))
      with (nth_error l (S i)) in Hj.
    exact (IH i H Hi Hj).
Qed.

Section GetRange.

Variable frame_ssim : string -> Z -> Z -> float.

Lemma diff_range_returns self unstable lo hi gap :
  0 <= gap -> apart gap unstable ->
  (forall u, In u unstable -> lo <= start u /\ end_ u <= hi
                               /\ start u < end_ u) ->
  (forall frame_id, lo <= frame_id <= hi ->
                    exists r, get_target_range_by_id self frame_id = inr r) ->
  forall indices range_list,
    (forall i, In i indices -> (i + 1 < List.length unstable)%nat) ->
    exists l,
      diff_range self unstable indices range_list = inr l
      /\ List.length l
         = (List.length range_list + List.length indices)%nat.
Proof.
  intros G A B Cov. induction indices as [|i indices IH];
    intros range_list H; simpl.
  - exists range_list. split; [reflexivity | lia].
  - assert (Hi : (i + 1 < List.length unstable)%nat)
      by (apply H; left; reflexivity).
    destruct (item_Some unstable i ltac:(lia)) as [u [Eu Iu]].
    destruct (item_Some unstable (i + 1) Hi) as [u' [Eu' Iu']].
    rewrite Eu, Eu'. cbn [bind Monad_either].
    assert (Sep : end_ u + gap < start u').
    { unfold item in Eu, Eu'.
      destruct (nth_error unstable i) eqn:N; [|discriminate].
      destruct (nth_error unstable (i + 1)) eqn:N'; [|discriminate].
      injection Eu as ->. injection Eu' as ->.
      rewrite Nat.add_1_r in N'. exact (apart_nth gap _ _ _ _ A N N'). }
    destruct (B u Iu) as [B1 [B2 B3]]. destruct (B u' Iu') as [B1' [B2' B3']].
    destruct (Cov (end_ u + 1 - 1) ltac:(lia)) as [a Ea].
    destruct (Cov (start u' - 1 - 1) ltac:(lia)) as [b Eb].
    rewrite Ea. cbn [bind Monad_either]. rewrite Eb.
    cbn [bind Monad_either].
    destruct (IH (range_list ++
                  [VideoCutRange_init (result_video_path self)
                     (end_ u + 1) (start u' - 1) [1%Q]
                     (start_time a) (end_time b)])
                ltac:(intros j Hj; apply H; right; exact Hj))
      as [l [El Ll]].
    exists l. split; [exact El|].
    rewrite Ll, length_app. simpl. lia.
Qed.

(** The outcome of [get_range], without filters, on a video as the
    pipeline returns it. *)
Lemma get_range_outcome (self : VideoCutResult) (kw : kwargs)
    (first first_change : VideoCutRange) :
  contiguous (ssim_list self) ->
  0 <= offset_value (kw_offset kw) ->
  (2 <= List.length (change_ranges self kw))%nat ->
  hd_error (ssim_list self) = Some first ->
  hd_error (change_ranges self kw) = Some first_change ->
  (start first + 2 <= start first_change ->
   exists stable,
     get_range frame_ssim self None None kw
     = inr (stable, merged_ranges (change_ranges self kw) (kw_offset kw))
     /\ List.length stable
        = S (List.length
               (merged_ranges (change_ranges self kw) (kw_offset kw))))
  /\ (start first_change < start first + 2 ->
      get_range frame_ssim self None None kw
      = inl (RuntimeError (start first_change - 2))).
Proof.
  intros Ct O L Hf Hc.
  pose proof (contiguous_in_sequence _ Ct) as Sq.
  unfold get_range.
  rewrite (get_unstable_range_fold frame_ssim self None None kw Sq O L).
  change (unstable_filters frame_ssim None None
            (merged_ranges (change_ranges self kw) (kw_offset kw)))
    with (merged_ranges (change_ranges self kw) (kw_offset kw)).
  cbn [bind Monad_either].
  destruct (change_ranges_in_sequence self kw Sq) as [Sc Fc].
  destruct (ssim_list self) as [|e0 elems] eqn:El; [discriminate|].
  injection Hf as ->.
  destruct (change_ranges self kw) as [|c0 rest] eqn:C; [discriminate|].
  injection Hc as ->.
  rewrite last_item_last. cbn [bind Monad_either].
  set (hi := end_ (last elems first)).
  assert (B : forall z, In z (first_change :: rest) ->
                        start first <= start z /\ end_ z <= hi
                        /\ start z < end_ z).
  { intros z Hz. rewrite Fc in Hz. apply filter_In in Hz.
    exact (contiguous_bounds first elems Ct z (proj1 Hz)). }
  simpl merged_ranges.
  destruct (greedy_merge_apart (kw_offset kw) rest O first_change
              first_change eq_refl eq_refl (in_sequence_head _ _ Sc) Sc)
    as [fu [out [G [Sfu [_ A]]]]].
  destruct (B first_change (or_introl eq_refl)) as [Bc1 [Bc2 Bc3]].
  assert (BU : forall u, In u (fu :: out) ->
                         start first <= start u /\ end_ u <= hi
                         /\ start u < end_ u).
  { rewrite <- G.
    exact (greedy_merge_bounded (kw_offset kw) (start first) hi rest
             first_change first_change eq_refl Bc3 Bc1 Sc B). }
  rewrite G.
  change (item (fu :: out) 0) with (@inr exn VideoCutRange fu).
  cbv beta iota.
  destruct (last_item_Some (fu :: out) ltac:(discriminate))
    as [lu [Elu Ilu]].
  rewrite Elu. cbn [bind Monad_either].
  assert (Cov : forall frame_id,
            start first <= frame_id <= hi ->
            exists r, get_target_range_by_id
                        {| result_video_path := result_video_path self;
                           ssim_list := first :: elems |} frame_id = inr r).
  { intros f Hf. unfold get_target_range_by_id. simpl ssim_list.
    exact (proj1 (first_containing_covered first elems f Ct) Hf). }
  assert (Self : self = {| result_video_path := result_video_path self;
                           ssim_list := first :: elems |})
    by (destruct self; simpl in *; congruence).
  rewrite Sfu. split.
  - intros H.
    rewrite Self.
    destruct (Cov (start first_change - 1 - 1) ltac:(lia)) as [a Ea].
    rewrite Ea. cbn [bind Monad_either].
    destruct (BU lu Ilu) as [Bl1 [Bl2 Bl3]].
    destruct (Cov (end_ lu - 1) ltac:(lia)) as [b Eb].
    rewrite Eb. cbn [bind Monad_either].
    match goal with
    | |- context [diff_range ?s ?u ?ix ?acc] =>
        destruct (diff_range_returns s u (start first) hi
                    (offset_value (kw_offset kw)) O A BU Cov ix acc)
          as [l [Dl Ll]]
    end.
    { intros i Hi. apply in_seq in Hi. simpl in *. lia. }
    rewrite Dl. cbn [bind Monad_either truthy_int ret].
    eexists. split; [reflexivity|].
    rewrite sorted_by_start_length, Ll, length_seq. simpl. lia.
  - intros H. rewrite Self.
    unfold get_target_range_by_id at 1. simpl ssim_list.
    rewrite (proj2 (first_containing_covered first elems
                      (start first_change - 1 - 1) Ct)) by lia.
    cbn [bind Monad_either]. do 2 f_equal. lia.
Qed.

End GetRange.

(** On a video as the pipeline returns it, with two unstable elementary
    ranges or more and an offset that is not negative, [get_range]
    without filters returns exactly when the first unstable range starts
    two frames or more after the video does; it then returns the ranges
    of the fold as the unstable ranges, with one stable range more than
    unstable ranges.  Otherwise it reports the frame two before the
    first unstable range as not found. *)
Theorem get_range_returns (frame_ssim : string -> Z -> Z -> float)
    (self : VideoCutResult) (kw : kwargs)
    (first first_change : VideoCutRange) :
  contiguous (ssim_list self) ->
  0 <= offset_value (kw_offset kw) ->
  (2 <= List.length (change_ranges self kw))%nat ->
  hd_error (ssim_list self) = Some first ->
  hd_error (change_ranges self kw) = Some first_change ->
  (start first + 2 <= start first_change ->
   exists stable,
     get_range frame_ssim self None None kw
     = inr (stable, merged_ranges (change_ranges self kw) (kw_offset kw))
     /\ List.length stable
        = S (List.length
               (merged_ranges (change_ranges self kw) (kw_offset kw))))
  /\ (start first_change < start first + 2 ->
      get_range frame_ssim self None None kw
      = inl (RuntimeError (start first_change - 2))).
Proof. apply get_range_outcome. Qed.

Lemma end_to_end_contiguous : contiguous (ssim_list end_to_end).
Proof. simpl. repeat split; vm_compute; reflexivity. Qed.

Lemma get_range_returns_witness :
  exists stable,
    get_range no_loop end_to_end None None no_kwargs
    = inr (stable, [mkVideoCutRange "v" 20 40 [0.40%Q; 0.35%Q] 20%Q 40%Q])
    /\ List.length stable = 2%nat.
Proof.
  refine (proj1 (get_range_returns no_loop end_to_end no_kwargs
                   (elementary 0 10 0.99) (elementary 20 30 0.40)
                   end_to_end_contiguous _ _ eq_refl eq_refl) _).
  - simpl. lia.
  - vm_compute. lia.
  - vm_compute. discriminate.
Defined.

(** [get_unstable_range] returns a list exactly when two elementary
    ranges or more are unstable; with one or none it raises [IndexError],
    and so does [get_range].  It raises nothing else. *)
Theorem get_unstable_range_needs_two
    (frame_ssim : string -> Z -> Z -> float) (self : VideoCutResult)
    (limit : option Z) (range_threshold : option float) (kw : kwargs) :
  ((exists l, get_unstable_range frame_ssim self limit range_threshold kw
              = inr l)
   <-> (2 <= List.length (change_ranges self kw))%nat)
  /\ (forall e,
        get_unstable_range frame_ssim self limit range_threshold kw = inl e ->
        e = IndexError)
  /\ ((List.length (change_ranges self kw) < 2)%nat ->
      get_range frame_ssim self limit range_threshold kw = inl IndexError).
Proof.
  destruct (get_unstable_range_outcome frame_ssim self limit range_threshold
              kw) as [A B].
  destruct (Nat.le_gt_cases 2 (List.length (change_ranges self kw)))
    as [H|H].
  - destruct (A H) as [l E]. split; [|split].
    + split; [intros _; exact H | intros _; exists l; exact E].
    + intros e K. congruence.
    + intros K. lia.
  - pose proof (B H) as E. split; [|split].
    + split; [intros [l K]; congruence | intros K; lia].
    + intros e K. congruence.
    + intros _. unfold get_range. rewrite E. reflexivity.
Qed.


(** ** The pipeline and the classification together *)

Section PipelineThenRanges.

Variable image : Type.
Variables np_vsplit np_hsplit : image -> Z -> list image.
Variable compress_frame : image -> image.
Variable compare_ssim : image -> image -> float.

Lemma ssim_while_contiguous self path block reads :
  0 < step self ->
  forall start_frame start_frame_id end_frame_id start_frame_time
         ssim_list out,
    start_frame_id < end_frame_id ->
    ssim_while image np_vsplit np_hsplit compress_frame compare_ssim
      self path block reads start_frame start_frame_id end_frame_id
      start_frame_time ssim_list = inr out ->
    exists l,
      out = ssim_list ++ l /\ contiguous l
      /\ forall r, hd_error l = Some r ->
                   start r = start_frame_id /\ video_path r = path.
Proof.
  intros S. induction reads as [|[end_frame end_frame_time] reads IH];
    intros start_frame sid eid stime acc out O H; simpl in H.
  - injection H as <-. exists []. rewrite app_nil_r.
    split; [reflexivity|]. split; [exact I | discriminate].
  - apply bind_inr in H. destruct H as [sp [_ H]].
    apply bind_inr in H. destruct H as [ep [_ H]].
    apply IH in H; [|lia]. destruct H as [l [-> [C Hd]]].
    eexists. rewrite <- app_assoc. split; [reflexivity|].
    rewrite VideoCutRange_init_ordered by lia. simpl.
    split; [|intros r K; injection K as <-; split; reflexivity].
    split; [lia|]. split; [|exact C].
    destruct l as [|b l]; [exact I|].
    destruct (Hd b eq_refl) as [Sb Pb]. split; congruence.
Qed.

(** The pipeline and [get_range] composed.  For a capture whose second
    frame id is greater than the first, cut with a positive step, the
    video that [cut] returns has contiguous elementary ranges; with two
    unstable ones or more, [get_range] returns on it exactly when the
    first unstable range starts two frames or more after the first frame
    read, and otherwise reports a frame as not found. *)
Theorem cut_then_get_range (frame_ssim : string -> Z -> Z -> float)
    (self : VideoCutter) (path : string) (block : option Z)
    (cap : capture image) (video : VideoCutResult) (kw : kwargs)
    (first_change : VideoCutRange) :
  0 < step self ->
  first_frame_id image cap < second_frame_id image cap ->
  cut image np_vsplit np_hsplit compress_frame compare_ssim self path block
    cap = inr video ->
  0 <= offset_value (kw_offset kw) ->
  (2 <= List.length (change_ranges video kw))%nat ->
  hd_error (change_ranges video kw) = Some first_change ->
  contiguous (ssim_list video)
  /\ (first_frame_id image cap + 2 <= start first_change ->
      exists stable,
        get_range frame_ssim video None None kw
        = inr (stable,
               merged_ranges (change_ranges video kw) (kw_offset kw)))
  /\ (start first_change < first_frame_id image cap + 2 ->
      get_range frame_ssim video None None kw
      = inl (RuntimeError (start first_change - 2))).
Proof.
  intros S O H Off L Hc. unfold cut in H.
  apply bind_inr in H. destruct H as [l [H V]]. injection V as <-.
  unfold convert_video_into_ssim_list in H.
  apply ssim_while_contiguous in H; [|exact S|exact O].
  destruct H as [l' [E [C Hd]]]. simpl in E. subst l'.
  simpl ssim_list. split; [exact C|].
  destruct l as [|first l].
  { exfalso. unfold change_ranges in L. simpl in L. lia. }
  destruct (Hd first eq_refl) as [Sf _].
  destruct (get_range_outcome frame_ssim
              (mkVideoCutResult path (first :: l)) kw first first_change
              C Off L eq_refl Hc) as [A B].
  rewrite Sf in A, B. split; [|exact B].
  intros K. destruct (A K) as [stable [G _]]. exists stable. exact G.
Qed.

End PipelineThenRanges.

(** ** Thumbnails *)

(** The frames that [thumbnail] stacks: the first [length] frames that
    the capture reads from the start of the range, compressed, in order;
    fewer when the video ends before the range does, none when it reads
    nothing. *)
Theorem thumbnail_frames (image : Type)
    (compress_frame : image -> float -> image)
    (np_vstack np_hstack : list image -> image)
    (target_range : VideoCutRange) (compress_rate : option float)
    (is_vertical : bool) (reads : list image) :
  well_formed target_range ->
  exists rate frames,
    thumbnail compress_frame np_vstack np_hstack target_range compress_rate
      is_vertical reads
    = (if is_vertical then np_vstack else np_hstack) frames
    /\ frames
       = map (fun frame => compress_frame frame rate)
           (firstn (Z.to_nat (get_length target_range)) reads)
    /\ Z.of_nat (List.length frames)
       = Z.min (get_length target_range) (Z.of_nat (List.length reads))
    /\ (truthy_float compress_rate = false -> rate = 0.1%Q)
    /\ (forall r, compress_rate = Some r -> ~ (r == 0)%Q -> rate = r).
Proof.
  intros W. unfold thumbnail.
  set (rate := if negb (truthy_float compress_rate) then 0.1%Q
               else match compress_rate with Some r => r | None => 0.1%Q end).
  assert (K : forall reads count acc,
            1 <= count ->
            thumbnail_while (fun frame => compress_frame frame rate) reads
              count (get_length target_range) acc
            = acc ++ map (fun frame => compress_frame frame rate)
                       (firstn (Z.to_nat (get_length target_range + 1
                                          - count)) reads)).
  { clear. induction reads as [|frame reads IH]; intros count acc C; simpl.
    - rewrite firstn_nil, app_nil_r. reflexivity.
    - destruct (Z.leb_spec count (get_length target_range)) as [L|L].
      + rewrite IH by lia. rewrite <- app_assoc. simpl.
        replace (Z.to_nat (get_length target_range + 1 - count))
          with (S (Z.to_nat (get_length target_range + 1 - (count + 1))))
          by lia.
        reflexivity.
      + replace (Z.to_nat (get_length target_range + 1 - count))
          with 0%nat by lia.
        rewrite app_nil_r. reflexivity. }
  exists rate. eexists. split; [reflexivity|].
  rewrite K by lia. simpl app.
  replace (get_length target_range + 1 - 1) with (get_length target_range)
    by lia.
  split; [reflexivity|]. split.
  - rewrite length_map, length_firstn.
    unfold well_formed, get_length in *. lia.
  - split.
    + intros T. unfold rate. rewrite T. reflexivity.
    + intros r -> N. unfold rate, truthy_float.
      destruct (Qeq_bool r 0) eqn:E; [|reflexivity].
      apply Qeq_bool_iff in E. contradiction.
Qed.

Lemma thumbnail_frames_witness :
  exists rate frames,
    thumbnail (fun frame (_ : float) => frame) (fun l => List.length l)
      (fun l => List.length l) (elementary 2 4 1) None false
      [7%nat; 8%nat]
    = (fun l => List.length l) frames
    /\ frames = map (fun frame => (fun frame (_ : float) => frame) frame rate)
                  (firstn (Z.to_nat (get_length (elementary 2 4 1)))
                     [7%nat; 8%nat])
    /\ Z.of_nat (List.length frames)
       = Z.min (get_length (elementary 2 4 1))
           (Z.of_nat (List.length [7%nat; 8%nat]))
    /\ (truthy_float None = false -> rate = 0.1%Q)
    /\ (forall r, @None float = Some r -> ~ (r == 0)%Q -> rate = r).
Proof.
  refine (thumbnail_frames nat (fun frame (_ : float) => frame)
            (fun l => List.length l) (fun l => List.length l)
            (elementary 2 4 1) None false [7%nat; 8%nat] _).
  vm_compute. discriminate.
Defined.

Lemma cut_then_get_range_witness :
  exists stable,
    get_range no_loop
      (mkVideoCutResult "v"
         [mkVideoCutRange "v" 1 2 [1%Q] 0.1%Q 0.2%Q;
          mkVideoCutRange "v" 2 3 [1%Q] 0.2%Q 0.3%Q;
          mkVideoCutRange "v" 3 4 [0.4%Q] 0.3%Q 0.4%Q;
          mkVideoCutRange "v" 4 5 [0.4%Q] 0.4%Q 0.5%Q])
      None None no_kwargs
    = inr (stable,
           [mkVideoCutRange "v" 3 5 [0.4%Q; 0.4%Q] 0.3%Q 0.5%Q]).
Proof.
  refine (proj1 (proj2
            (cut_then_get_range Z
               (fun img column => repeat img (Z.to_nat column))
               (fun img column => repeat img (Z.to_nat column))
               (fun img => img) alike no_loop (VideoCutter_init None) "v"%string
               None five_frames
               (mkVideoCutResult "v"
                  [mkVideoCutRange "v" 1 2 [1%Q] 0.1%Q 0.2%Q;
                   mkVideoCutRange "v" 2 3 [1%Q] 0.2%Q 0.3%Q;
                   mkVideoCutRange "v" 3 4 [0.4%Q] 0.3%Q 0.4%Q;
                   mkVideoCutRange "v" 4 5 [0.4%Q] 0.4%Q 0.5%Q])
               no_kwargs (mkVideoCutRange "v" 3 4 [0.4%Q] 0.3%Q 0.4%Q)
               _ _ _ _ _ _)) _).
  - reflexivity.
  - reflexivity.
  - reflexivity.
  - simpl. lia.
  - vm_compute. lia.
  - reflexivity.
  - vm_compute. discriminate.
Defined.

(** ** Instances *)

Lemma least_ssim_is_least_witness :
  Qle (least_ssim Z alike [7; 8] [7; 9]) (alike 8 9).
Proof.
  refine (proj1 (proj2 (least_ssim_is_least Z alike [7; 8] [7; 9])) 8 9 _).
  simpl. right. left. reflexivity.
Defined.

Lemma pic_split_row_major_witness :
  pic_split Z (fun img column => repeat img (Z.to_nat column))
    (fun img column => repeat (img + 1) (Z.to_nat column)) 7 2
  = inr [8; 8; 8; 8].
Proof.
  refine (proj1 (pic_split_row_major Z
                   (fun img column => repeat img (Z.to_nat column))
                   (fun img column => repeat (img + 1) (Z.to_nat column))
                   7 2) _).
  reflexivity.
Defined.

Lemma get_target_range_by_id_first_witness :
  get_target_range_by_id end_to_end 10 = inr (elementary 0 10 0.99).
Proof.
  refine (proj2 (proj1 (get_target_range_by_id_first end_to_end 10)
                   (elementary 0 10 0.99)) _).
  exists [],
    [elementary 10 20 0.99; elementary 20 30 0.40; elementary 30 40 0.35;
     elementary 40 60 0.99].
  split; [reflexivity|]. split; [reflexivity | intros x []].
Defined.

Lemma get_unstable_range_needs_two_witness :
  get_range no_loop one_change None None no_kwargs = inl IndexError.
Proof.
  refine (proj2 (proj2 (get_unstable_range_needs_two no_loop one_change
                          None None no_kwargs)) _).
  vm_compute. lia.
Defined.
